(** * MagneticSim: magnetic-field computation engine

    A shallow embedding of the numerical core of the four scripts
    [simulator.py], [simulator_.py], [2d_sim.py] and [2d_sim_gemini.py].

    Numbers are the reals of the Standard Library: the scripts compute with
    binary64 values, and every statement below is about the exact
    arithmetic those values approximate.  NumPy arrays are lists, an
    (N,3) array is a list of [Vec3] rows, and an operation that raises in
    Python returns [None]. *)

From Stdlib Require Import Reals Lra Lia List ZArith Zfloor Bool.
Import ListNotations.
Open Scope R_scope.

(** Settles the comparisons of a goal once the numbers are known. *)
Ltac decide_reals :=
  repeat match goal with
         | |- context [Rlt_dec ?a ?b] => destruct (Rlt_dec a b); try lra
         | |- context [Req_EM_T ?a ?b] => destruct (Req_EM_T a b); try lra
         end.

(** ** NumPy primitives used by the scripts *)

Module Np.

Record Vec3 : Type := mkVec { vx : R; vy : R; vz : R }.

Definition vzero : Vec3 := mkVec 0 0 0.

Definition vadd (a b : Vec3) : Vec3 :=
  mkVec (vx a + vx b) (vy a + vy b) (vz a + vz b).

Definition vsub (a b : Vec3) : Vec3 :=
  mkVec (vx a - vx b) (vy a - vy b) (vz a - vz b).

Definition vscale (c : R) (a : Vec3) : Vec3 :=
  mkVec (c * vx a) (c * vy a) (c * vz a).

(** [a * c], componentwise, the scalar on the right. *)
Definition vmulr (a : Vec3) (c : R) : Vec3 :=
  mkVec (vx a * c) (vy a * c) (vz a * c).

(** [a / c], componentwise. *)
Definition vdiv (a : Vec3) (c : R) : Vec3 :=
  mkVec (vx a / c) (vy a / c) (vz a / c).

(** [np.dot] on two 3-vectors. *)
Definition dot (a b : Vec3) : R := vx a * vx b + vy a * vy b + vz a * vz b.

(** [np.cross] on two 3-vectors. *)
Definition cross (a b : Vec3) : Vec3 :=
  mkVec (vy a * vz b - vz a * vy b)
        (vz a * vx b - vx a * vz b)
        (vx a * vy b - vy a * vx b).

(** [np.linalg.norm] of a 3-vector. *)
Definition norm (a : Vec3) : R :=
  sqrt (vx a * vx a + vy a * vy a + vz a * vz a).

(** [np.sum(rows, axis=0)] on an (N,3) array: rows are added in order,
    starting from zero; an empty array sums to zero. *)
Definition vsum (rows : list Vec3) : Vec3 := fold_left vadd rows vzero.

(** [np.sum] of a 1-d array. *)
Definition rsum (l : list R) : R := fold_left Rplus l 0.

(** [np.linspace(start, stop, num, endpoint=False)]: [num] samples
    [start + k * step] with [step = (stop - start) / num]. *)
Definition linspace_open (start stop : R) (num : nat) : list R :=
  map (fun k => start + INR k * ((stop - start) / INR num)) (seq 0 num).

(** [np.arange(start, stop, step)] on floats: [ceil((stop - start) / step)]
    samples [start + k * step] (none when that count is negative);
    a zero step raises. *)
Definition arange (start stop step : R) : option (list R) :=
  if Req_EM_T step 0 then None
  else Some (map (fun k => start + INR k * step)
                 (seq 0 (Z.to_nat (Zceil ((stop - start) / step))))).

(** [np.diff(a)]: consecutive differences [a[k+1] - a[k]]. *)
Fixpoint diff (l : list R) : list R :=
  match l with
  | a :: (b :: _) as t => (b - a) :: diff t
  | _ => []
  end.

(** [np.diff(a, append=a[0])]; [a[0]] raises IndexError on an empty array. *)
Definition diff_append_first (a : list R) : option (list R) :=
  match a with
  | [] => None
  | a0 :: _ => Some (diff (a ++ [a0]))
  end.

(** [np.zeros_like(a)] and [np.full_like(a, v)]. *)
Definition zeros_like (a : list R) : list R := map (fun _ => 0) a.
Definition full_like (a : list R) (v : R) : list R := map (fun _ => v) a.

(** [np.stack([xs, ys, zs], axis=1)] for three arrays of one length:
    row [k] is [(xs[k], ys[k], zs[k])]. *)
Definition stack3 (xs ys zs : list R) : list Vec3 :=
  map (fun t => mkVec (fst t) (fst (snd t)) (snd (snd t)))
      (combine xs (combine ys zs)).

(** [a / b] on Python floats: ZeroDivisionError on a zero divisor. *)
Definition pydiv (a b : R) : option R :=
  if Req_EM_T b 0 then None else Some (a / b).

(** [l[-k]] for [k >= 1]: IndexError when the list has fewer than [k]
    elements. *)
Definition neg_index (l : list R) (k : nat) : option R :=
  if (k <=? length l)%nat then nth_error l (length l - k) else None.

(** [np.sign]. *)
Definition sign (x : R) : R :=
  if Rlt_dec x 0 then -1 else if Rlt_dec 0 x then 1 else 0.

(** Sequencing of operations that may raise. *)
Definition bind {A B : Type} (o : option A) (f : A -> option B) : option B :=
  match o with
  | Some a => f a
  | None => None
  end.

(** The value of [np.where(r_norm == 0, np.inf, r_norm**3)]: a real or
    [+inf]. *)
Inductive ext : Type :=
| Fin (r : R)
| PInf.

Definition where_zero_inf (r_norm : R) : ext :=
  if Req_EM_T r_norm 0 then PInf else Fin (r_norm ^ 3).

(** A finite value divided by an [ext]: IEEE gives [x / inf = 0]. *)
Definition div_ext (x : R) (d : ext) : R :=
  match d with
  | Fin r => x / r
  | PInf => 0
  end.

Definition vdiv_ext (a : Vec3) (d : ext) : Vec3 :=
  mkVec (div_ext (vx a) d) (div_ext (vy a) d) (div_ext (vz a) d).

End Np.

Import Np.

(** ** Coil geometry (both simulator scripts) *)

Module Coil.

(** The system parameters at the top of both scripts. *)
Record Params : Type := mkParams {
  coils_number : nat;    (* number of turns *)
  coils_step : R;        (* axial distance between turns *)
  coils_radius : R;
  coils_points : nat     (* points per turn *)
}.

Section Ring.

Variable p : Params.

Definition thetas : list R := linspace_open 0 (2 * PI) (coils_points p).

Definition coil_pos_x : list R := map (fun t => coils_radius p * cos t) thetas.
Definition coil_pos_y : list R := map (fun t => coils_radius p * sin t) thetas.

Definition dl_x : option (list R) := diff_append_first coil_pos_x.
Definition dl_y : option (list R) := diff_append_first coil_pos_y.

(** The body of the loop over turns: origins and dl rows of the ring at
    axial offset [z_pos]. *)
Definition ring_origins (z_pos : R) : list Vec3 :=
  stack3 coil_pos_x coil_pos_y (full_like coil_pos_x z_pos).

Definition ring_dl (dlx dly : list R) : list Vec3 :=
  stack3 dlx dly (zeros_like dlx).

(** [r_primes] and [dl_vectors] for a given list of axial offsets: one
    ring per offset, concatenated along axis 0. *)
Definition build (z_positions : list R) : option (list Vec3 * list Vec3) :=
  match dl_x, dl_y with
  | Some dlx, Some dly =>
      Some (concat (map ring_origins z_positions),
            concat (map (fun _ => ring_dl dlx dly) z_positions))
  | _, _ => None
  end.

End Ring.

End Coil.

(** [simulator.py]: the turns are enumerated by
    [np.arange(0, coils_number * coils_step + coils_step, coils_step)]. *)
Module Simulator.

Import Coil.

Definition z_positions (p : Params) : option (list R) :=
  arange 0 (INR (coils_number p) * coils_step p + coils_step p) (coils_step p).

Definition geometry (p : Params) : option (list Vec3 * list Vec3) :=
  match z_positions p with
  | Some zs => build p zs
  | None => None
  end.

(** The parameters written in the script. *)
Definition params : Params := mkParams 3 (1 / 10) 1 1000.

End Simulator.

(** [simulator_.py]: the turns are enumerated by
    [for k in range(coils_number): z_pos = k * coils_step]. *)
Module SimulatorAnim.

Import Coil.

Definition z_positions (p : Params) : list R :=
  map (fun k => INR k * coils_step p) (seq 0 (coils_number p)).

Definition geometry (p : Params) : option (list Vec3 * list Vec3) :=
  build p (z_positions p).

Definition params : Params := mkParams 3 (1 / 10) 1 1000.

End SimulatorAnim.

(** ** Biot-Savart and dipole evaluators, magnet motion ([simulator_.py]) *)

Module Field.

(** [f(a, b)] elementwise on two arrays (rows paired in order). *)
Definition map2 {A B C : Type} (f : A -> B -> C) (l1 : list A) (l2 : list B)
  : list C :=
  map (fun ab => f (fst ab) (snd ab)) (combine l1 l2).

Definition mu_0 : R := 4 * PI * (1 / 10 ^ 7).

(** [magnetic_field_from_dipole(r_point, r_dipole, m_dipole)]. *)
Definition magnetic_field_from_dipole (r_point r_dipole m_dipole : Vec3) : Vec3 :=
  let r_vec := vsub r_point r_dipole in
  let r_mag := norm r_vec in
  if Req_EM_T r_mag 0 then mkVec 0 0 0
  else
    let r_hat := vdiv r_vec r_mag in
    let m_dot_r_hat := dot m_dipole r_hat in
    let term := vsub (vmulr (vscale 3 r_hat) m_dot_r_hat) m_dipole in
    vdiv (vscale (mu_0 / (4 * PI)) term) (r_mag ^ 3).

(** The dipole field in the words of the specification:
    [(mu_0 / 4 pi) * (3 r_hat (m . r_hat) - m) / |r_vec|^3]. *)
Definition dipole_formula (r_point r_dipole m_dipole : Vec3) : Vec3 :=
  let r_vec := vsub r_point r_dipole in
  let r_hat := vdiv r_vec (norm r_vec) in
  vdiv (vscale (mu_0 / (4 * PI))
               (vsub (vscale (3 * dot m_dipole r_hat) r_hat) m_dipole))
       (norm r_vec ^ 3).

(** [magnetic_field_from_coil_at_point(r_point, r_primes, dl_vectors, km)],
    one array statement per definition. *)
Section AtPoint.

Variables (r_point : Vec3) (r_primes dl_vectors : list Vec3) (km : R).

Definition r_vector : list Vec3 := map (fun rp => vsub r_point rp) r_primes.
Definition r_norm : list R := map norm r_vector.
Definition r_norm3 : list ext := map where_zero_inf r_norm.
Definition dB_contributions : list Vec3 :=
  map (vscale km) (map2 vdiv_ext (map2 cross dl_vectors r_vector) r_norm3).
Definition magnetic_field_from_coil_at_point : Vec3 := vsum dB_contributions.

End AtPoint.

(** Row [n] of [dB_contributions], as a function of segment [n]: what one
    segment [(origin, dl)] adds to the field at [r_point]. *)
Definition segment_dB (km : R) (r_point dl origin : Vec3) : Vec3 :=
  vscale km (vdiv_ext (cross dl (vsub r_point origin))
                      (where_zero_inf (norm (vsub r_point origin)))).

(** The magnet parameters and the position update at the top of
    [animate]. *)
Record Magnet : Type := mkMagnet {
  magnet_magnetic_moment : Vec3;
  magnet_speed : R;
  magnet_initial_z : R;
  magnet_final_z : R
}.

Definition magnet : Magnet := mkMagnet (mkVec 0 0 (-50)) (5 / 100) 4 (-4).

(** The globals [animate] reads and writes. *)
Record State : Type := mkState {
  magnet_current_z : R;
  magnet_z_positions : list R;
  B_magnitude_at_center : list R
}.

Definition initial (m : Magnet) : State := mkState (magnet_initial_z m) [] [].

Definition move (m : Magnet) (z : R) : R :=
  let z1 := z - magnet_speed m in
  if Rlt_dec z1 (magnet_final_z m) then magnet_initial_z m else z1.

(** One call of [animate]; [center] is the fixed observation point
    [(coil_center_x, coil_center_y, coil_center_z)]. *)
Definition animate (m : Magnet) (center : Vec3) (st : State) : State :=
  let z := move m (magnet_current_z st) in
  let magnet_pos := mkVec (vx center) (vy center) z in
  let B_magnet_at_center :=
    magnetic_field_from_dipole center magnet_pos (magnet_magnetic_moment m) in
  let B_magnitude_current := norm B_magnet_at_center in
  mkState z
          (magnet_z_positions st ++ [z])
          (B_magnitude_at_center st ++ [B_magnitude_current]).

End Field.

(** ** Whole-grid Biot-Savart evaluation ([simulator.py]) *)

Module Grid.

Import Field.

(** A 3-d array indexed [i, j, k]. *)
Definition Grid (A : Type) : Type := list (list (list A)).

Definition gmap {A B : Type} (f : A -> B) (g : Grid A) : Grid B :=
  map (map (map f)) g.

Definition gmap2 {A B C : Type} (f : A -> B -> C) (g : Grid A) (h : Grid B)
  : Grid C :=
  map2 (map2 (map2 f)) g h.

Definition gget {A : Type} (i j k : nat) (g : Grid A) : option A :=
  match nth_error g i with
  | Some plane =>
      match nth_error plane j with
      | Some line => nth_error line k
      | None => None
      end
  | None => None
  end.

(** [np.stack(np.meshgrid(x_dim, y_dim, z_dim, indexing='ij'), axis=-1)]:
    entry [i, j, k] is [(x_dim[i], y_dim[j], z_dim[k])]. *)
Definition meshgrid_ij (x_dim y_dim z_dim : list R) : Grid Vec3 :=
  map (fun x => map (fun y => map (fun z => mkVec x y z) z_dim) y_dim) x_dim.

Section Broadcast.

Variables (lattice : Grid Vec3) (r_primes dl_vectors : list Vec3) (km : R).

(** [r - r_prime], shape (N, nx, ny, nz, 3): one grid per segment. *)
Definition r_vector : list (Grid Vec3) :=
  map (fun rp => gmap (fun r => vsub r rp) lattice) r_primes.

Definition r_norm : list (Grid R) := map (gmap norm) r_vector.

Definition r_norm3 : list (Grid ext) := map (gmap where_zero_inf) r_norm.

Definition dB : list (Grid Vec3) :=
  map (gmap (vscale km))
      (map2 (gmap2 vdiv_ext)
            (map2 (fun dl g => gmap (cross dl) g) dl_vectors r_vector)
            r_norm3).

(** [np.sum(dB, axis=0)]. *)
Definition B : Grid Vec3 :=
  fold_left (gmap2 vadd) dB (gmap (fun _ => vzero) lattice).

End Broadcast.

(** The sampling axes of the script:
    [np.arange(lo, hi + space_res, space_res)]. *)
Definition space_res : R := 1 / 2.
Definition x_dim : option (list R) := arange (-2) (2 + space_res) space_res.
Definition y_dim : option (list R) := arange (-3) (3 + space_res) space_res.
Definition z_dim : option (list R) := arange (-4) (4 + space_res) space_res.

End Grid.

(** ** Flux and EMF time series of [2d_sim.py] *)

Module Sim2D.

Notation "x <- c ;; k" := (bind c (fun x => k))
  (at level 61, c at next level, right associativity).

Record Params : Type := mkParams {
  N : R;               (* turns of the loop *)
  A : R;               (* loop area *)
  v : R;               (* magnet speed *)
  m : R;               (* magnetic moment *)
  coil_position : R;
  dt : R;
  x0 : R               (* initial magnet position *)
}.

(** The constants written in the script. *)
Definition params : Params :=
  mkParams 1 (1 / 10 ^ 4) (2 / 100) 1 (1 / 2) (5 / 100) (- (1 / 2)).

Definition mu_0 : R := 4 * PI * (1 / 10 ^ 7).

(** The softened denominator [r**3 + 1e-9] of [B_field]. *)
Definition softened (p : Params) (x : R) : R :=
  let r := coil_position p - x in
  r ^ 3 + 1 / 10 ^ 9.

(** [B_field(x)]. *)
Definition B_field (p : Params) (x : R) : option R :=
  pydiv (mu_0 * m p) (2 * PI * softened p x).

Record State : Type := mkState {
  x_vals : list R;
  flux_vals : list R;
  emf_vals : list R
}.

Definition empty : State := mkState [] [] [].

(** The magnet position [x0 + v * t] at time [t = frame * dt]. *)
Definition x_at (p : Params) (frame : nat) : R :=
  x0 p + v p * (INR frame * dt p).

(** The numerical part of [update(frame)]. *)
Definition update (p : Params) (frame : nat) (st : State) : option State :=
  let t := INR frame * dt p in
  let x := x0 p + v p * t in
  B <- B_field p x ;;
  let flux := N p * A p * B in
  let x_vals1 := x_vals st ++ [t] in
  let flux_vals1 := flux_vals st ++ [flux] in
  emf <- (if Nat.eqb frame 0 then Some 0
          else
            last1 <- neg_index flux_vals1 1 ;;
            last2 <- neg_index flux_vals1 2 ;;
            pydiv (- (last1 - last2)) (dt p)) ;;
  Some (mkState x_vals1 flux_vals1 (emf_vals st ++ [emf])).

(** The arrow direction [np.sign(emf)] drawn after each update. *)
Definition arrow_dir (emf : R) : R := sign emf.

(** The driver calls [update] with frames [0, 1, ..., n - 1] in order. *)
Fixpoint run (p : Params) (n : nat) : option State :=
  match n with
  | O => Some empty
  | S k => st <- run p k ;; update p k st
  end.

End Sim2D.

(** ** Flux, EMF, current and the Lenz indicator of [2d_sim_gemini.py] *)

Module Sim2DGemini.

Notation "x <- c ;; k" := (bind c (fun x => k))
  (at level 61, c at next level, right associativity).

Record Params : Type := mkParams {
  coil_x : R;
  coil_y : R;
  coil_width : R;
  coil_height : R;
  num_turns : R;
  coil_resistance : R;
  magnet_length : R;
  initial_magnet_x : R;
  magnet_speed : R;
  B_field_strength : R;
  xlim : R * R          (* [ax.get_xlim()] *)
}.

(** The constants written in the script; the axis limits are those of
    [ax.set_xlim([-5, 5])]. *)
Definition params : Params :=
  mkParams 0 0 (3 / 2) (3 / 2) 10 1 (8 / 10) (-3) (1 / 10) 1 (-5, 5).

Definition coil_center_x (p : Params) : R := coil_x p.
Definition coil_center_y (p : Params) : R := coil_y p.

(** [calculate_magnetic_field_at_coil]; its [coil_width] argument is not
    used by the body. *)
Definition calculate_magnetic_field_at_coil
    (magnet_pos_x coil_pos_x coil_width B_strength : R) : option R :=
  let distance := Rabs (magnet_pos_x - coil_pos_x) in
  let epsilon := 1 / 10 in
  pydiv B_strength (distance ^ 2 + epsilon).

(** What the green current arrow and the purple induced-field arrows
    show. *)
Record Indicator : Type := mkIndicator {
  current_arrow_alpha : R;
  current_arrow_y : list R;     (* [y] of the arrow, as last set *)
  current_arrow_dy : R;         (* [dy] of the arrow, as last set *)
  induced_B_arrow_in_alpha : R;
  induced_B_arrow_out_alpha : R;
  induced_B_text_alpha : R;
  induced_B_saliendo : option bool
    (* text of [induced_B_text]: [Some true] for SALIENDO, [Some false]
       for ENTRANDO, [None] for the initial label *)
}.

(** The indicators as the script creates them. *)
Definition hidden (p : Params) : Indicator :=
  mkIndicator 0 [coil_center_y p] 0 0 0 0 None.

(** The block "Actualizar la visualizacion de la corriente y el campo
    inducido" of [animate]. *)
Definition lenz (p : Params) (emf_induced current_induced : R)
    (ind : Indicator) : Indicator :=
  let current_strength := Rabs current_induced in
  if Rlt_dec (1 / 100) current_strength then
    if Rlt_dec emf_induced 0 then
      mkIndicator 1
        [coil_center_y p + coil_height p / 2 * (7 / 10);
         coil_center_y p + coil_height p / 2 * (7 / 10) - 1 / 1000]
        (- (1 / 10) * sign current_induced)
        0 1 1 (Some true)
    else if Rlt_dec 0 emf_induced then
      mkIndicator 1
        [coil_center_y p - coil_height p / 2 * (7 / 10);
         coil_center_y p - coil_height p / 2 * (7 / 10) + 1 / 1000]
        (1 / 10 * sign current_induced)
        1 0 1 (Some false)
    else
      mkIndicator 0 (current_arrow_y ind) (current_arrow_dy ind)
        0 0 0 (induced_B_saliendo ind)
  else
    mkIndicator 0 (current_arrow_y ind) (current_arrow_dy ind)
      0 0 0 (induced_B_saliendo ind).

Record State : Type := mkState {
  magnet_x : R;
  flux_history : list R;
  emf_history : list R;
  current_history : list R;
  time_steps : list nat;
  indicator : Indicator
}.

(** The module-level initial values; [init] clears the four histories and
    hides the indicators. *)
Definition fresh (p : Params) (x : R) : State :=
  mkState x [] [] [] [] (hidden p).

Definition initial (p : Params) : State := fresh p (initial_magnet_x p).

(** "Mover el iman": advance, and restart from the left edge once the
    magnet has left through the right edge. *)
Definition move (p : Params) (x : R) : R :=
  let x1 := x + magnet_speed p in
  if Rlt_dec (snd (xlim p) + magnet_length p / 2) x1
  then fst (xlim p) - magnet_length p / 2
  else x1.

Definition dt_sim : R := 1.


(** The numerical part of [animate(frame)]. *)
Definition animate (p : Params) (frame : nat) (st : State) : option State :=
  let x := move p (magnet_x st) in
  B_at_coil <- calculate_magnetic_field_at_coil
                 x (coil_center_x p) (coil_width p) (B_field_strength p) ;;
  magnetic_field_magnitude <-
    pydiv (B_field_strength p)
          ((x - coil_center_x p) ^ 2 + (coil_width p / 2) ^ 2) ;;
  let phi_B :=
    magnetic_field_magnitude * coil_width p * coil_height p * num_turns p in
  let time_steps1 := time_steps st ++ [frame] in
  let flux_history1 := flux_history st ++ [phi_B] in
  emf_induced <-
    (if (1 <? length flux_history1)%nat then
       last1 <- neg_index flux_history1 1 ;;
       last2 <- neg_index flux_history1 2 ;;
       let delta_flux := last1 - last2 in
       pydiv (- delta_flux) dt_sim
     else Some 0) ;;
  current_induced <- pydiv emf_induced (coil_resistance p) ;;
  Some (mkState x flux_history1
                (emf_history st ++ [emf_induced])
                (current_history st ++ [current_induced])
                time_steps1
                (lenz p emf_induced current_induced (indicator st))).

(** The driver calls [animate] once per frame. *)
Fixpoint run (p : Params) (frames : list nat) (st : State) : option State :=
  match frames with
  | [] => Some st
  | f :: fs => st1 <- animate p f st ;; run p fs st1
  end.




End Sim2DGemini.

(** ** The EMF rule in the words of the specification *)

Module TimeSeries.

(** [EMF[0] = 0] and [EMF[n] = -(flux[n] - flux[n-1]) / dt] for [n >= 1],
    one EMF entry per flux entry. *)
Definition backward_difference (dt : R) (flux emf : list R) : Prop :=
  length emf = length flux /\
  forall n, (n < length flux)%nat ->
    nth n emf 0 =
    match n with
    | O => 0
    | S k => - (nth (S k) flux 0 - nth k flux 0) / dt
    end.

End TimeSeries.

(** ** Observation point and constants of [simulator_.py] *)

Module Observation.

(** [np.mean] of a 1-d array; [None] stands for the nan of an empty
    array. *)
Definition mean (l : list R) : option R :=
  match l with
  | [] => None
  | _ :: _ => Some (rsum l / INR (length l))
  end.

(** [np.mean(r_primes_coil[:,0])], [np.mean(r_primes_coil[:,1])] and
    [np.mean(all_coil_z_positions)]. *)
Definition coil_center_x (r_primes_coil : list Vec3) : option R :=
  mean (map vx r_primes_coil).
Definition coil_center_y (r_primes_coil : list Vec3) : option R :=
  mean (map vy r_primes_coil).
Definition coil_center_z (all_coil_z_positions : list R) : option R :=
  mean all_coil_z_positions.

(** [center_point], from the geometry the script has just built. *)
Definition center_point (p : Coil.Params) : option Vec3 :=
  match SimulatorAnim.geometry p with
  | Some (r_primes_coil, _) =>
      bind (coil_center_x r_primes_coil) (fun cx =>
      bind (coil_center_y r_primes_coil) (fun cy =>
      bind (coil_center_z (SimulatorAnim.z_positions p)) (fun cz =>
      Some (mkVec cx cy cz))))
  | None => None
  end.

End Observation.

(** ** Heat map and quiver sampling of [simulator.py] *)

Module HeatMap.

(** [np.argmin]: the index of the first smallest entry; raises on an
    empty array. *)
Fixpoint argmin_from (best : R) (best_i i : nat) (l : list R) : nat :=
  match l with
  | [] => best_i
  | a :: t =>
      if Rlt_dec a best then argmin_from a i (S i) t
      else argmin_from best best_i (S i) t
  end.

Definition argmin (l : list R) : option nat :=
  match l with
  | [] => None
  | a :: t => Some (argmin_from a 0 1 t)
  end.

(** [B[..., c][x_index, :, :]] for a component [c]: IndexError when
    [x_index] is out of range. *)
Definition plane (c : Vec3 -> R) (B : Grid.Grid Vec3) (x_index : nat)
  : option (list (list R)) :=
  option_map (map (map c)) (nth_error B x_index).

(** [B_magnitude = np.sqrt(Bz_plane**2 + By_plane**2)] on the plane
    [x_index = np.argmin(x_dim)]. *)
Definition B_magnitude (B : Grid.Grid Vec3) (x_dim : list R)
  : option (list (list R)) :=
  bind (argmin x_dim) (fun x_index =>
  bind (plane vy B x_index) (fun By_plane =>
  bind (plane vz B x_index) (fun Bz_plane =>
  Some (Field.map2 (Field.map2 (fun bz by_ => sqrt (bz ^ 2 + by_ ^ 2)))
                   Bz_plane By_plane)))).

(** [l[::step]] read from position [skip]: every [step]-th entry. *)
Fixpoint every {A : Type} (step skip : nat) (l : list A) : list A :=
  match l with
  | [] => []
  | a :: t =>
      match skip with
      | O => a :: every step (step - 1) t
      | S s => every step s t
      end
  end.

(** [g[::step, ::step, ::step]]; a zero step raises. *)
Definition slice3 {A : Type} (step : nat) (g : Grid.Grid A)
  : option (Grid.Grid A) :=
  match step with
  | O => None
  | S _ => Some (map (map (every step 0)) (map (every step 0) (every step 0 g)))
  end.

(** The arrays handed to [ax.quiver]: the subsampled coordinates
    [Xq, Yq, Zq] of the lattice and the subsampled components [U, V, W]
    of the field. *)
Record Quiver : Type := mkQuiver {
  Xq : Grid.Grid R; Yq : Grid.Grid R; Zq : Grid.Grid R;
  U : Grid.Grid R; V : Grid.Grid R; W : Grid.Grid R
}.

Definition quiver (step : nat) (lattice B : Grid.Grid Vec3) : option Quiver :=
  bind (slice3 step (Grid.gmap vx lattice)) (fun xq =>
  bind (slice3 step (Grid.gmap vy lattice)) (fun yq =>
  bind (slice3 step (Grid.gmap vz lattice)) (fun zq =>
  bind (slice3 step B) (fun Bq =>
  Some (mkQuiver xq yq zq
                 (Grid.gmap vx Bq) (Grid.gmap vy Bq) (Grid.gmap vz Bq)))))).

End HeatMap.

(** ** Restarting the animations *)

Module Restart.

(** [init] of [2d_sim.py] empties the drawn lines only: the three lists
    keep their contents. *)
Definition init_2d (st : Sim2D.State) : Sim2D.State := st.

(** The flux [N * A * B_field(x)] of frame [k] of [2d_sim.py], where the
    field is defined. *)
Definition flux_value (p : Sim2D.Params) (k : nat) : R :=
  Sim2D.N p * Sim2D.A p
  * (Sim2D.mu_0 * Sim2D.m p
     / (2 * PI * Sim2D.softened p (Sim2D.x_at p k))).


End Restart.

(** * Properties *)

(** ** Lists of reals and rows *)

Lemma last_cons_indep (l : list R) :
  forall c a b, last (c :: l) a = last (c :: l) b.
Proof.
  induction l as [|d l IH]; intros c a b; [reflexivity|].
  change (last (d :: l) a = last (d :: l) b). apply IH.
Qed.

Lemma last_cons_default (b a : R) (l : list R) : last (b :: l) a = last l b.
Proof.
  destruct l as [|c l]; [reflexivity|].
  change (last (c :: l) a = last (c :: l) b). apply last_cons_indep.
Qed.

(** The differences of an array telescope. *)
Lemma fold_diff_telescope (l : list R) :
  forall a acc, fold_left Rplus (diff (a :: l)) acc = acc + (last l a - a).
Proof.
  induction l as [|b l IH]; intros a acc.
  - simpl. lra.
  - change (diff (a :: b :: l)) with ((b - a) :: diff (b :: l)).
    cbn [fold_left]. rewrite IH.
    rewrite (last_cons_default b a l). lra.
Qed.

Lemma rsum_diff_closed (a0 : R) (l : list R) :
  rsum (diff ((a0 :: l) ++ [a0])) = 0.
Proof.
  unfold rsum. rewrite <- app_comm_cons, fold_diff_telescope.
  rewrite last_last. lra.
Qed.

Lemma length_diff (l : list R) : length (diff l) = (length l - 1)%nat.
Proof.
  induction l as [|a [|b l] IH]; [reflexivity | reflexivity |].
  change (diff (a :: b :: l)) with ((b - a) :: diff (b :: l)).
  simpl length in *. rewrite IH. lia.
Qed.

Lemma diff_append_first_some (l : list R) :
  l <> [] ->
  exists d, diff_append_first l = Some d /\ length d = length l /\ rsum d = 0.
Proof.
  destruct l as [|a0 l]; [congruence|]. intros _.
  exists (diff ((a0 :: l) ++ [a0])). split; [reflexivity|]. split.
  - rewrite length_diff, length_app. simpl. lia.
  - apply rsum_diff_closed.
Qed.

Lemma fold_zeros_like (l : list R) (acc : R) :
  fold_left Rplus (zeros_like l) acc = acc.
Proof.
  revert acc; induction l as [|a l IH]; intro acc; [reflexivity|].
  simpl. rewrite IH. lra.
Qed.

Lemma length_stack3 (xs ys zs : list R) :
  length ys = length xs -> length zs = length xs ->
  length (stack3 xs ys zs) = length xs.
Proof.
  intros Hy Hz. unfold stack3.
  rewrite length_map, !length_combine. lia.
Qed.

(** Summing stacked rows sums each column. *)
Lemma fold_vadd_stack3 (xs : list R) :
  forall ys zs acc,
    length ys = length xs -> length zs = length xs ->
    fold_left vadd (stack3 xs ys zs) acc =
    mkVec (fold_left Rplus xs (vx acc))
          (fold_left Rplus ys (vy acc))
          (fold_left Rplus zs (vz acc)).
Proof.
  induction xs as [|x xs IH]; intros [|y ys] [|z zs] acc Hy Hz;
    try discriminate.
  - destruct acc; reflexivity.
  - simpl in Hy, Hz.
    change (stack3 (x :: xs) (y :: ys) (z :: zs))
      with (mkVec x y z :: stack3 xs ys zs).
    cbn [fold_left]. rewrite IH by lia. reflexivity.
Qed.

Lemma length_concat_uniform {A : Type} (n : nat) (ls : list (list A)) :
  Forall (fun l => length l = n) ls ->
  length (concat ls) = (length ls * n)%nat.
Proof.
  induction 1 as [|l ls Hl _ IH]; [reflexivity|].
  simpl. rewrite length_app, IH, Hl. reflexivity.
Qed.

(** Row [k * n + j] of a concatenation of blocks of [n] rows is row [j]
    of block [k]. *)
Lemma nth_concat_uniform {A : Type} (n : nat) (d : A) (ls : list (list A)) :
  Forall (fun l => length l = n) ls ->
  forall k j, (j < n)%nat ->
    nth (k * n + j) (concat ls) d = nth j (nth k ls []) d.
Proof.
  induction 1 as [|l ls Hl _ IH]; intros k j Hj.
  - simpl. destruct (k * n + j)%nat, k, j; reflexivity.
  - destruct k as [|k]; simpl concat.
    + simpl. rewrite app_nth1 by lia. reflexivity.
    + rewrite app_nth2 by (rewrite Hl; simpl; lia).
      replace (S k * n + j - length l)%nat with (k * n + j)%nat
        by (rewrite Hl; simpl; lia).
      rewrite IH by assumption. reflexivity.
Qed.

(** ** Geometry generator *)

Section RingFacts.

Import Coil.

Variable p : Params.
Hypothesis points_pos : (0 < coils_points p)%nat.

Lemma length_thetas : length (thetas p) = coils_points p.
Proof. unfold thetas, linspace_open. now rewrite length_map, length_seq. Qed.

Lemma length_coil_pos_x : length (coil_pos_x p) = coils_points p.
Proof. unfold coil_pos_x. now rewrite length_map, length_thetas. Qed.

Lemma length_coil_pos_y : length (coil_pos_y p) = coils_points p.
Proof. unfold coil_pos_y. now rewrite length_map, length_thetas. Qed.

Lemma dl_x_some :
  exists d, dl_x p = Some d /\ length d = coils_points p /\ rsum d = 0.
Proof.
  destruct (diff_append_first_some (coil_pos_x p)) as (d & E & L & S).
  - intro E. pose proof length_coil_pos_x as H. rewrite E in H. simpl in H. lia.
  - exists d. rewrite length_coil_pos_x in L. auto.
Qed.

Lemma dl_y_some :
  exists d, dl_y p = Some d /\ length d = coils_points p /\ rsum d = 0.
Proof.
  destruct (diff_append_first_some (coil_pos_y p)) as (d & E & L & S).
  - intro E. pose proof length_coil_pos_y as H. rewrite E in H. simpl in H. lia.
  - exists d. rewrite length_coil_pos_y in L. auto.
Qed.

Lemma length_ring_origins (z : R) :
  length (ring_origins p z) = coils_points p.
Proof.
  unfold ring_origins. rewrite length_stack3.
  - apply length_coil_pos_x.
  - now rewrite length_coil_pos_y, length_coil_pos_x.
  - unfold full_like. now rewrite length_map.
Qed.

Lemma length_ring_dl (dlx dly : list R) :
  length dly = length dlx -> length (ring_dl dlx dly) = length dlx.
Proof.
  intro H. unfold ring_dl. apply length_stack3; [assumption|].
  unfold zeros_like. now rewrite length_map.
Qed.

Lemma vz_ring_origins (z : R) (j : nat) :
  (j < coils_points p)%nat -> vz (nth j (ring_origins p z) vzero) = z.
Proof.
  intro Hj. pose proof (length_ring_origins z) as L.
  assert (Hin : In (nth j (ring_origins p z) vzero) (ring_origins p z))
    by (apply nth_In; lia).
  revert Hin. generalize (nth j (ring_origins p z) vzero). intros w Hin.
  unfold ring_origins, stack3 in Hin. apply in_map_iff in Hin.
  destruct Hin as ([x [y z1]] & <- & Hin). simpl.
  apply in_combine_r, in_combine_r in Hin.
  unfold full_like in Hin. apply in_map_iff in Hin.
  now destruct Hin as (? & -> & _).
Qed.

(** For any list of offsets, [build] yields one ring of
    [coils_points] segments per offset. *)
Lemma build_count (zs : list R) :
  exists rp dl,
    build p zs = Some (rp, dl) /\
    length rp = (length zs * coils_points p)%nat /\
    length dl = (length zs * coils_points p)%nat /\
    forall k j, (k < length zs)%nat -> (j < coils_points p)%nat ->
      vz (nth (k * coils_points p + j) rp vzero) = nth k zs 0.
Proof.
  destruct dl_x_some as (dx & Ex & Lx & _).
  destruct dl_y_some as (dy & Ey & Ly & _).
  unfold build. rewrite Ex, Ey.
  eexists _, _. split; [reflexivity|].
  assert (Ho : Forall (fun l => length l = coils_points p)
                      (map (ring_origins p) zs)).
  { apply Forall_forall. intros l Hl. apply in_map_iff in Hl.
    destruct Hl as (z & <- & _). apply length_ring_origins. }
  repeat split.
  - rewrite (length_concat_uniform (coils_points p)), length_map; auto.
  - rewrite (length_concat_uniform (coils_points p)), length_map; auto.
    apply Forall_forall. intros l Hl. apply in_map_iff in Hl.
    destruct Hl as (z & <- & _). rewrite length_ring_dl; congruence.
  - intros k j Hk Hj.
    rewrite (nth_concat_uniform (coils_points p)) by assumption.
    rewrite (nth_indep _ [] (ring_origins p 0))
      by (rewrite length_map; assumption).
    rewrite (map_nth (ring_origins p) zs 0 k).
    now apply vz_ring_origins.
Qed.

End RingFacts.

(** [simulator_.py]: [coils_number] rings of [coils_points] segments, ring
    [k] at axial offset [k * coils_step]. *)
Lemma anim_geometry_count (p : Coil.Params) :
  (0 < Coil.coils_points p)%nat ->
  exists rp dl,
    SimulatorAnim.geometry p = Some (rp, dl) /\
    length rp = (Coil.coils_points p * Coil.coils_number p)%nat /\
    length dl = (Coil.coils_points p * Coil.coils_number p)%nat /\
    forall k j, (k < Coil.coils_number p)%nat -> (j < Coil.coils_points p)%nat ->
      vz (nth (k * Coil.coils_points p + j) rp vzero) = INR k * Coil.coils_step p.
Proof.
  intro HP.
  destruct (build_count p HP (SimulatorAnim.z_positions p))
    as (rp & dl & E & Lr & Ld & Hz).
  assert (LT : length (SimulatorAnim.z_positions p) = Coil.coils_number p).
  { unfold SimulatorAnim.z_positions. now rewrite length_map, length_seq. }
  exists rp, dl. rewrite LT in *. repeat split; try assumption; try lia.
  intros k j Hk Hj. rewrite (Hz k j Hk Hj).
  unfold SimulatorAnim.z_positions.
  rewrite (nth_indep _ 0 (INR 0 * Coil.coils_step p))
    by (rewrite length_map, length_seq; assumption).
  rewrite (map_nth (fun k => INR k * Coil.coils_step p)).
  rewrite seq_nth by assumption. reflexivity.
Qed.

(** [simulator.py]: the stop value [coils_number * coils_step + coils_step]
    makes [np.arange] enumerate one offset more than [coils_number]. *)
Lemma simulator_z_positions (p : Coil.Params) :
  Coil.coils_step p <> 0 ->
  Simulator.z_positions p =
  Some (map (fun k => 0 + INR k * Coil.coils_step p)
            (seq 0 (S (Coil.coils_number p)))).
Proof.
  intro Hs. unfold Simulator.z_positions, arange.
  destruct (Req_EM_T (Coil.coils_step p) 0) as [E|_]; [contradiction|].
  replace (Zceil _) with (Z.of_nat (S (Coil.coils_number p))).
  - now rewrite Nat2Z.id.
  - symmetry. apply Zceil_eq. rewrite <- INR_IZR_INZ, S_INR.
    replace ((INR (Coil.coils_number p) * Coil.coils_step p
              + Coil.coils_step p - 0) / Coil.coils_step p)
      with (INR (Coil.coils_number p) + 1) by (field; assumption).
    lra.
Qed.

Lemma simulator_geometry_count (p : Coil.Params) :
  (0 < Coil.coils_points p)%nat -> Coil.coils_step p <> 0 ->
  exists rp dl,
    Simulator.geometry p = Some (rp, dl) /\
    length rp = (Coil.coils_points p * S (Coil.coils_number p))%nat /\
    length dl = (Coil.coils_points p * S (Coil.coils_number p))%nat /\
    forall k j, (k <= Coil.coils_number p)%nat -> (j < Coil.coils_points p)%nat ->
      vz (nth (k * Coil.coils_points p + j) rp vzero)
      = 0 + INR k * Coil.coils_step p.
Proof.
  intros HP Hs. unfold Simulator.geometry.
  rewrite (simulator_z_positions p Hs).
  set (zs := map _ _).
  destruct (build_count p HP zs) as (rp & dl & E & Lr & Ld & Hz).
  assert (LT : length zs = S (Coil.coils_number p)).
  { unfold zs. now rewrite length_map, length_seq. }
  exists rp, dl. rewrite LT in *. repeat split; try assumption; try lia.
  intros k j Hk Hj. rewrite (Hz k j) by (assumption || lia).
  unfold zs.
  rewrite (nth_indep _ 0 (0 + INR 0 * Coil.coils_step p))
    by (rewrite length_map, length_seq; lia).
  rewrite (map_nth (fun k => 0 + INR k * Coil.coils_step p)).
  rewrite seq_nth by lia. reflexivity.
Qed.

(** C7: for every positive resolution (and any radius) the segment
    displacement vectors of the discretized loop sum to the zero vector:
    both [np.diff(..., append=first)] columns telescope to zero and the
    z column is zero. *)
Theorem ring_closure (p : Coil.Params) :
  (0 < Coil.coils_points p)%nat ->
  exists dlx dly,
    Coil.dl_x p = Some dlx /\ Coil.dl_y p = Some dly /\
    length (Coil.ring_dl dlx dly) = Coil.coils_points p /\
    vsum (Coil.ring_dl dlx dly) = vzero.
Proof.
  intro HP.
  destruct (dl_x_some p HP) as (dx & Ex & Lx & Sx).
  destruct (dl_y_some p HP) as (dy & Ey & Ly & Sy).
  exists dx, dy. repeat split; try assumption.
  - rewrite length_ring_dl; congruence.
  - unfold vsum, Coil.ring_dl.
    rewrite fold_vadd_stack3;
      [ | congruence | unfold zeros_like; now rewrite length_map ].
    rewrite fold_zeros_like. unfold rsum in Sx, Sy. simpl.
    now rewrite Sx, Sy.
Qed.

Lemma ring_closure_witness :
  (0 < Coil.coils_points SimulatorAnim.params)%nat /\
  exists dlx dly,
    Coil.dl_x SimulatorAnim.params = Some dlx /\
    Coil.dl_y SimulatorAnim.params = Some dly /\
    length (Coil.ring_dl dlx dly) = Coil.coils_points SimulatorAnim.params /\
    vsum (Coil.ring_dl dlx dly) = vzero.
Proof.
  split; [ simpl; lia | apply (ring_closure SimulatorAnim.params); simpl; lia ].
Defined.

(** C1, at the parameters written in [simulator.py] (3 turns, 1000 points
    per turn, spacing 0.1): the generator emits 4 rings, 4000 segments,
    the extra ring at offset [3 * 0.1]; the claimed count is 3000. *)
Theorem simulator_geometry_extra_ring :
  exists rp dl,
    Simulator.geometry Simulator.params = Some (rp, dl) /\
    length rp = 4000%nat /\ length dl = 4000%nat /\
    vz (nth 3000 rp vzero) = 3 / 10 /\
    length rp <>
    (Coil.coils_points Simulator.params * Coil.coils_number Simulator.params)%nat.
Proof.
  destruct (simulator_geometry_count Simulator.params)
    as (rp & dl & E & Lr & Ld & Hz).
  - simpl; lia.
  - simpl; lra.
  - exists rp, dl. simpl Coil.coils_points in *. simpl Coil.coils_number in *.
    split; [exact E|]. split; [lia|]. split; [lia|]. split.
    + specialize (Hz 3%nat 0%nat). 
      replace (3 * 1000 + 0)%nat with 3000%nat in Hz by lia.
      rewrite Hz by lia. simpl. lra.
    + lia.
Qed.

(** ** Field evaluators *)

Lemma vadd_vzero_r (a : Vec3) : vadd a vzero = a.
Proof. destruct a; unfold vadd; simpl; f_equal; lra. Qed.

Lemma norm_vsub_self (a : Vec3) : norm (vsub a a) = 0.
Proof.
  unfold norm, vsub; simpl.
  replace (_ + _ + _) with 0 by ring. apply sqrt_0.
Qed.

Lemma norm_vsub_zero (a b : Vec3) : norm (vsub a b) = 0 -> a = b.
Proof.
  destruct a as [ax ay az], b as [bx by_ bz].
  unfold norm, vsub; simpl. intro H.
  set (u := ax - bx) in *. set (v := ay - by_) in *. set (w := az - bz) in *.
  pose proof (Rle_0_sqr u) as Hu. pose proof (Rle_0_sqr v) as Hv.
  pose proof (Rle_0_sqr w) as Hw. unfold Rsqr in Hu, Hv, Hw.
  apply sqrt_eq_0 in H; [| lra].
  assert (u * u = 0) by lra. assert (v * v = 0) by lra.
  assert (w * w = 0) by lra.
  assert (u = 0) by (apply Rsqr_0_uniq; assumption).
  assert (v = 0) by (apply Rsqr_0_uniq; assumption).
  assert (w = 0) by (apply Rsqr_0_uniq; assumption).
  unfold u, v, w in *. f_equal; lra.
Qed.

Lemma norm_vsub_neq (a b : Vec3) : a <> b -> norm (vsub a b) <> 0.
Proof. intros H E. apply H. now apply norm_vsub_zero. Qed.

Lemma map2_map_same {X A B C : Type} (f : A -> B -> C)
    (a : X -> A) (b : X -> B) (l : list X) :
  Field.map2 f (map a l) (map b l) = map (fun x => f (a x) (b x)) l.
Proof.
  unfold Field.map2. induction l as [|x l IH]; [reflexivity|].
  simpl. now rewrite IH.
Qed.

Lemma map2_map_r {A B B' C : Type} (f : A -> B' -> C) (g : B -> B')
    (l1 : list A) (l2 : list B) :
  Field.map2 f l1 (map g l2)
  = map (fun s => f (fst s) (g (snd s))) (combine l1 l2).
Proof.
  unfold Field.map2. revert l2.
  induction l1 as [|a l1 IH]; intros [|b l2]; try reflexivity.
  simpl. now rewrite IH.
Qed.

Lemma map2_combine_r {A B C D E : Type} (f : C -> D -> E)
    (a : A * B -> C) (b : B -> D) (l1 : list A) (l2 : list B) :
  Field.map2 f (map a (combine l1 l2)) (map b l2)
  = map (fun s => f (a s) (b (snd s))) (combine l1 l2).
Proof.
  unfold Field.map2. revert l2.
  induction l1 as [|x l1 IH]; intros [|y l2]; try reflexivity.
  simpl. now rewrite IH.
Qed.

(** The array statements of the single-point evaluator compute
    [segment_dB] row by row. *)
Lemma dB_contributions_rows (pt : Vec3) (r_primes dl_vectors : list Vec3)
    (km : R) :
  Field.dB_contributions pt r_primes dl_vectors km
  = map (fun s => Field.segment_dB km pt (fst s) (snd s))
        (combine dl_vectors r_primes).
Proof.
  unfold Field.dB_contributions, Field.r_norm3, Field.r_norm, Field.r_vector.
  rewrite (map2_map_r cross).
  rewrite (map_map (fun rp => vsub pt rp) norm).
  rewrite (map_map _ where_zero_inf).
  rewrite (map2_combine_r vdiv_ext).
  rewrite map_map.
  reflexivity.
Qed.

Lemma segment_dB_coincident (km : R) (pt dl : Vec3) :
  Field.segment_dB km pt dl pt = vzero.
Proof.
  unfold Field.segment_dB, where_zero_inf.
  rewrite norm_vsub_self.
  destruct (Req_EM_T 0 0) as [_|N]; [| now elim N].
  unfold vdiv_ext, vscale, vzero; simpl. f_equal; lra.
Qed.

Lemma segment_dB_regular (km : R) (pt dl origin : Vec3) :
  origin <> pt ->
  norm (vsub pt origin) ^ 3 <> 0 /\
  Field.segment_dB km pt dl origin
  = vscale km (vdiv (cross dl (vsub pt origin)) (norm (vsub pt origin) ^ 3)).
Proof.
  intro H.
  assert (Hn : norm (vsub pt origin) <> 0)
    by (apply norm_vsub_neq; congruence).
  split; [now apply pow_nonzero|].
  unfold Field.segment_dB, where_zero_inf.
  destruct (Req_EM_T (norm (vsub pt origin)) 0) as [E|_]; [contradiction|].
  reflexivity.
Qed.

Lemma fold_vadd_skip_zero (l1 l2 : list Vec3) (acc : Vec3) :
  fold_left vadd (l1 ++ vzero :: l2) acc = fold_left vadd (l1 ++ l2) acc.
Proof.
  rewrite !fold_left_app. simpl. now rewrite vadd_vzero_r.
Qed.

Lemma combine_app_same {A B : Type} (l1 l1' : list A) (l2 l2' : list B) :
  length l1 = length l2 ->
  combine (l1 ++ l1') (l2 ++ l2') = combine l1 l2 ++ combine l1' l2'.
Proof.
  revert l2. induction l1 as [|a l1 IH]; intros [|b l2] H; try discriminate.
  - reflexivity.
  - simpl. f_equal. apply IH. simpl in H. lia.
Qed.

(** ** Whole-grid evaluation against single-point evaluation *)

Lemma gmap_gmap {A B C : Type} (f : A -> B) (g : B -> C) (G : Grid.Grid A) :
  Grid.gmap g (Grid.gmap f G) = Grid.gmap (fun a => g (f a)) G.
Proof.
  unfold Grid.gmap. rewrite map_map. apply map_ext. intro plane.
  rewrite map_map. apply map_ext. intro line. apply map_map.
Qed.

Lemma gmap_ext {A B : Type} (f g : A -> B) (G : Grid.Grid A) :
  (forall a, f a = g a) -> Grid.gmap f G = Grid.gmap g G.
Proof.
  intro H. unfold Grid.gmap.
  apply map_ext. intro plane. apply map_ext. intro line. now apply map_ext.
Qed.

(** Two arrays broadcast from one lattice combine entry by entry. *)
Lemma gmap2_gmap_same {X A B C : Type} (f : A -> B -> C)
    (a : X -> A) (b : X -> B) (G : Grid.Grid X) :
  Grid.gmap2 f (Grid.gmap a G) (Grid.gmap b G)
  = Grid.gmap (fun x => f (a x) (b x)) G.
Proof.
  unfold Grid.gmap2, Grid.gmap.
  rewrite (map2_map_same (Field.map2 (Field.map2 f))).
  apply map_ext. intro plane.
  rewrite (map2_map_same (Field.map2 f)).
  apply map_ext. intro line. apply map2_map_same.
Qed.

Lemma gget_gmap {A B : Type} (f : A -> B) (G : Grid.Grid A) (i j k : nat) :
  Grid.gget i j k (Grid.gmap f G) = option_map f (Grid.gget i j k G).
Proof.
  unfold Grid.gget, Grid.gmap.
  rewrite nth_error_map. destruct (nth_error G i) as [plane|]; [|reflexivity].
  simpl. rewrite nth_error_map.
  destruct (nth_error plane j) as [line|]; [|reflexivity].
  simpl. apply nth_error_map.
Qed.

Lemma gget_meshgrid (xs ys zs : list R) (i j k : nat) (x y z : R) :
  nth_error xs i = Some x -> nth_error ys j = Some y ->
  nth_error zs k = Some z ->
  Grid.gget i j k (Grid.meshgrid_ij xs ys zs) = Some (mkVec x y z).
Proof.
  intros Hx Hy Hz. unfold Grid.gget, Grid.meshgrid_ij.
  rewrite nth_error_map, Hx. simpl.
  rewrite nth_error_map, Hy. simpl.
  rewrite nth_error_map, Hz. reflexivity.
Qed.

(** The broadcast array [dB] holds, for each segment, the grid of that
    segment's [segment_dB] at every lattice point. *)
Lemma grid_dB_rows (lattice : Grid.Grid Vec3) (r_primes dl_vectors : list Vec3)
    (km : R) :
  Grid.dB lattice r_primes dl_vectors km
  = map (fun s => Grid.gmap (fun r => Field.segment_dB km r (fst s) (snd s))
                            lattice)
        (combine dl_vectors r_primes).
Proof.
  unfold Grid.dB, Grid.r_norm3, Grid.r_norm, Grid.r_vector.
  rewrite (map2_map_r (fun dl g => Grid.gmap (cross dl) g)).
  rewrite (map_map _ (Grid.gmap norm)).
  rewrite (map_map _ (Grid.gmap where_zero_inf)).
  rewrite (map2_combine_r (Grid.gmap2 vdiv_ext)).
  rewrite map_map. apply map_ext. intros [dl rp]. simpl.
  rewrite !gmap_gmap, gmap2_gmap_same, gmap_gmap.
  apply gmap_ext. intro r. reflexivity.
Qed.

(** Summing grids broadcast from one lattice sums at every lattice
    point. *)
Lemma fold_gmap2_vadd {S : Type} (F : S -> Vec3 -> Vec3)
    (lattice : Grid.Grid Vec3) (segs : list S) :
  forall acc : Vec3 -> Vec3,
    fold_left (Grid.gmap2 vadd)
              (map (fun s => Grid.gmap (F s) lattice) segs)
              (Grid.gmap acc lattice)
    = Grid.gmap (fun r => fold_left vadd (map (fun s => F s r) segs) (acc r))
                lattice.
Proof.
  induction segs as [|s segs IH]; intro acc; [reflexivity|].
  simpl. rewrite gmap2_gmap_same. apply (IH (fun r => vadd (acc r) (F s r))).
Qed.

Lemma grid_B_pointwise (lattice : Grid.Grid Vec3)
    (r_primes dl_vectors : list Vec3) (km : R) :
  Grid.B lattice r_primes dl_vectors km
  = Grid.gmap
      (fun r => Field.magnetic_field_from_coil_at_point r r_primes dl_vectors km)
      lattice.
Proof.
  unfold Grid.B. rewrite grid_dB_rows.
  rewrite (fold_gmap2_vadd
             (fun s r => Field.segment_dB km r (fst s) (snd s))).
  apply gmap_ext. intro r.
  unfold Field.magnetic_field_from_coil_at_point, vsum.
  now rewrite dB_contributions_rows.
Qed.

(** The sampling axes of [simulator.py] include their upper bounds:
    9, 13 and 17 samples at spacing 0.5. *)
Lemma arange_count (start stop step : R) (n : nat) :
  step <> 0 ->
  INR n - 1 < (stop - start) / step <= INR n ->
  arange start stop step
  = Some (map (fun k => start + INR k * step) (seq 0 n)).
Proof.
  intros Hs Hn. unfold arange.
  destruct (Req_EM_T step 0) as [E|_]; [contradiction|].
  rewrite (Zceil_eq (Z.of_nat n)) by (rewrite <- INR_IZR_INZ; exact Hn).
  now rewrite Nat2Z.id.
Qed.

Lemma script_axes :
  Grid.x_dim = Some (map (fun k => -2 + INR k * Grid.space_res) (seq 0 9)) /\
  Grid.y_dim = Some (map (fun k => -3 + INR k * Grid.space_res) (seq 0 13)) /\
  Grid.z_dim = Some (map (fun k => -4 + INR k * Grid.space_res) (seq 0 17)).
Proof.
  unfold Grid.x_dim, Grid.y_dim, Grid.z_dim, Grid.space_res.
  repeat split; apply arange_count; try lra;
    rewrite INR_IZR_INZ; simpl Z.of_nat; lra.
Qed.

(** ** Singular segments *)

(** C5: a segment whose origin is the field point adds exactly the zero
    vector (its cubed norm is [+inf]), every other segment adds
    [km * (dl x r) / |r|^3] with a nonzero divisor; the single-point
    evaluator is the sum of these rows and the broadcast array [dB] of the
    grid evaluator holds the same rows at every lattice point; a
    coincident segment can be dropped from the geometry without changing
    the field.  Both evaluators are total: nothing is raised. *)
Theorem biot_savart_singularity (km : R) (pt : Vec3) :
  (forall dl, where_zero_inf (norm (vsub pt pt)) = PInf /\
              Field.segment_dB km pt dl pt = vzero) /\
  (forall dl origin, origin <> pt ->
     norm (vsub pt origin) ^ 3 <> 0 /\
     Field.segment_dB km pt dl origin
     = vscale km (vdiv (cross dl (vsub pt origin))
                       (norm (vsub pt origin) ^ 3))) /\
  (forall r_primes dl_vectors,
     Field.magnetic_field_from_coil_at_point pt r_primes dl_vectors km
     = vsum (map (fun s => Field.segment_dB km pt (fst s) (snd s))
                 (combine dl_vectors r_primes))) /\
  (forall lattice r_primes dl_vectors,
     Grid.dB lattice r_primes dl_vectors km
     = map (fun s =>
              Grid.gmap (fun r => Field.segment_dB km r (fst s) (snd s))
                        lattice)
           (combine dl_vectors r_primes)) /\
  (forall rp1 rp2 dl1 dl2 dl,
     length dl1 = length rp1 ->
     Field.magnetic_field_from_coil_at_point
       pt (rp1 ++ pt :: rp2) (dl1 ++ dl :: dl2) km
     = Field.magnetic_field_from_coil_at_point pt (rp1 ++ rp2) (dl1 ++ dl2) km).
Proof.
  split; [| split; [| split; [| split]]].
  - intro dl. split; [| apply segment_dB_coincident].
    unfold where_zero_inf. rewrite norm_vsub_self.
    destruct (Req_EM_T 0 0) as [_|N]; [reflexivity | now elim N].
  - intros dl origin H. now apply segment_dB_regular.
  - intros. unfold Field.magnetic_field_from_coil_at_point.
    now rewrite dB_contributions_rows.
  - intros. apply grid_dB_rows.
  - intros rp1 rp2 dl1 dl2 dl L.
    unfold Field.magnetic_field_from_coil_at_point.
    rewrite !dB_contributions_rows.
    rewrite !combine_app_same by assumption.
    rewrite !map_app. simpl. rewrite segment_dB_coincident.
    apply fold_vadd_skip_zero.
Qed.

Lemma biot_savart_singularity_witness :
  (mkVec 1 0 0 <> mkVec 0 0 0 /\
   Field.segment_dB 1 (mkVec 0 0 0) (mkVec 0 1 0) (mkVec 1 0 0)
   = vscale 1 (vdiv (cross (mkVec 0 1 0) (vsub (mkVec 0 0 0) (mkVec 1 0 0)))
                    (norm (vsub (mkVec 0 0 0) (mkVec 1 0 0)) ^ 3))) /\
  (length [mkVec 0 1 0] = length [mkVec 1 0 0] /\
   Field.magnetic_field_from_coil_at_point
     (mkVec 0 0 0) ([mkVec 1 0 0] ++ mkVec 0 0 0 :: [])
     ([mkVec 0 1 0] ++ mkVec 1 1 1 :: []) 1
   = Field.magnetic_field_from_coil_at_point
       (mkVec 0 0 0) ([mkVec 1 0 0] ++ []) ([mkVec 0 1 0] ++ []) 1).
Proof.
  assert (H : mkVec 1 0 0 <> mkVec 0 0 0)
    by (intro E; apply (f_equal vx) in E; simpl in E; lra).
  split.
  - split; [exact H|].
    exact (proj2 (proj1 (proj2 (biot_savart_singularity 1 (mkVec 0 0 0)))
                        (mkVec 0 1 0) (mkVec 1 0 0) H)).
  - split; [reflexivity|].
    apply (proj2 (proj2 (proj2 (proj2 (biot_savart_singularity 1 (mkVec 0 0 0)))))).
    reflexivity.
Defined.

(** C2: the broadcast evaluation over a lattice is the single-point
    evaluation applied at every lattice point; in particular entry
    [i, j, k] of the field volume over [meshgrid(x_dim, y_dim, z_dim)] is
    the single-point field at [(x_dim[i], y_dim[j], z_dim[k])]. *)
Theorem grid_equals_single_point (r_primes dl_vectors : list Vec3) (km : R) :
  (forall lattice,
     Grid.B lattice r_primes dl_vectors km
     = Grid.gmap
         (fun r =>
            Field.magnetic_field_from_coil_at_point r r_primes dl_vectors km)
         lattice) /\
  (forall xs ys zs i j k x y z,
     nth_error xs i = Some x -> nth_error ys j = Some y ->
     nth_error zs k = Some z ->
     Grid.gget i j k
       (Grid.B (Grid.meshgrid_ij xs ys zs) r_primes dl_vectors km)
     = Some (Field.magnetic_field_from_coil_at_point
               (mkVec x y z) r_primes dl_vectors km)).
Proof.
  split.
  - intro lattice. apply grid_B_pointwise.
  - intros xs ys zs i j k x y z Hx Hy Hz.
    rewrite grid_B_pointwise, gget_gmap.
    now rewrite (gget_meshgrid xs ys zs i j k x y z Hx Hy Hz).
Qed.

Lemma grid_equals_single_point_witness :
  nth_error [0; 1] 1 = Some 1 /\ nth_error [2] 0 = Some 2 /\
  nth_error [3; 4; 5] 2 = Some 5 /\
  Grid.gget 1 0 2
    (Grid.B (Grid.meshgrid_ij [0; 1] [2] [3; 4; 5])
            [mkVec 1 0 0; mkVec 0 1 0] [mkVec 0 1 0; mkVec (-1) 0 0] 30)
  = Some (Field.magnetic_field_from_coil_at_point
            (mkVec 1 2 5)
            [mkVec 1 0 0; mkVec 0 1 0] [mkVec 0 1 0; mkVec (-1) 0 0] 30).
Proof.
  split; [reflexivity|]. split; [reflexivity|]. split; [reflexivity|].
  apply (proj2 (grid_equals_single_point
                  [mkVec 1 0 0; mkVec 0 1 0] [mkVec 0 1 0; mkVec (-1) 0 0] 30)
               [0; 1] [2] [3; 4; 5] 1%nat 0%nat 2%nat 1 2 5);
    reflexivity.
Defined.

(** ** Dipole evaluator *)

(** C6: at the dipole position the evaluator returns the zero vector;
    at every other field point [|r_vec|] is nonzero and the result is
    [(mu_0 / 4 pi) * (3 r_hat (m . r_hat) - m) / |r_vec|^3]. *)
Theorem dipole_field_cases (r_point r_dipole m_dipole : Vec3) :
  (r_point = r_dipole ->
   Field.magnetic_field_from_dipole r_point r_dipole m_dipole = vzero) /\
  (r_point <> r_dipole ->
   norm (vsub r_point r_dipole) <> 0 /\
   Field.magnetic_field_from_dipole r_point r_dipole m_dipole
   = Field.dipole_formula r_point r_dipole m_dipole).
Proof.
  unfold Field.magnetic_field_from_dipole. split.
  - intros ->. rewrite norm_vsub_self.
    destruct (Req_EM_T 0 0) as [_|N]; [reflexivity | now elim N].
  - intro H. pose proof (norm_vsub_neq _ _ H) as Hn. split; [exact Hn|].
    destruct (Req_EM_T (norm (vsub r_point r_dipole)) 0) as [E|_];
      [contradiction|].
    unfold Field.dipole_formula, vdiv, vscale, vmulr, vsub, dot; simpl.
    f_equal; unfold Rdiv; ring.
Qed.

Lemma dipole_field_cases_witness :
  (mkVec 0 0 0 = mkVec 0 0 0 /\
   Field.magnetic_field_from_dipole (mkVec 0 0 0) (mkVec 0 0 0) (mkVec 0 0 (-50))
   = vzero) /\
  (mkVec 0 0 1 <> mkVec 0 0 0 /\
   Field.magnetic_field_from_dipole (mkVec 0 0 1) (mkVec 0 0 0) (mkVec 0 0 (-50))
   = Field.dipole_formula (mkVec 0 0 1) (mkVec 0 0 0) (mkVec 0 0 (-50))).
Proof.
  assert (H : mkVec 0 0 1 <> mkVec 0 0 0)
    by (intro E; apply (f_equal vz) in E; simpl in E; lra).
  split; split.
  - reflexivity.
  - apply (proj1 (dipole_field_cases (mkVec 0 0 0) (mkVec 0 0 0) (mkVec 0 0 (-50)))).
    reflexivity.
  - exact H.
  - apply (proj2 (dipole_field_cases (mkVec 0 0 1) (mkVec 0 0 0) (mkVec 0 0 (-50)))).
    exact H.
Defined.

(** ** Time series: flux history and backward-difference EMF *)

Lemma pydiv_some (a b : R) : b <> 0 -> pydiv a b = Some (a / b).
Proof.
  intro H. unfold pydiv. now destruct (Req_EM_T b 0).
Qed.


Lemma neg_index_snoc_1 (l : list R) (a : R) : neg_index (l ++ [a]) 1 = Some a.
Proof.
  unfold neg_index. rewrite length_app. simpl length.
  replace (length l + 1 - 1)%nat with (length l) by lia.
  replace (1 <=? length l + 1)%nat with true
    by (symmetry; apply Nat.leb_le; lia).
  rewrite nth_error_app2 by lia. now rewrite Nat.sub_diag.
Qed.

Lemma neg_index_snoc_2 (l : list R) (a : R) :
  l <> [] ->
  neg_index (l ++ [a]) 2 = Some (nth (length l - 1) l 0).
Proof.
  intro H. assert (0 < length l)%nat
    by (destruct l; [congruence | simpl; lia]).
  unfold neg_index. rewrite length_app. simpl length.
  replace (2 <=? length l + 1)%nat with true
    by (symmetry; apply Nat.leb_le; lia).
  replace (length l + 1 - 2)%nat with (length l - 1)%nat by lia.
  rewrite nth_error_app1 by lia.
  apply nth_error_nth'. lia.
Qed.

Lemma neg_index_snoc_2_nil (a : R) : neg_index ([] ++ [a]) 2 = None.
Proof. reflexivity. Qed.

Lemma backward_difference_nil (dt : R) : TimeSeries.backward_difference dt [] [].
Proof. split; [reflexivity|]. simpl. intros n H. lia. Qed.

(** The first sample: no history, EMF zero whatever the flux. *)
Lemma backward_difference_first (dt phi : R) :
  TimeSeries.backward_difference dt ([] ++ [phi]) ([] ++ [0]).
Proof.
  split; [reflexivity|]. simpl. intros [|n] H; [reflexivity | lia].
Qed.

(** A later sample: the new EMF is the negated difference to the
    previous flux, divided by the step. *)
Lemma backward_difference_snoc (dt phi : R) (flux emf : list R) :
  flux <> [] ->
  TimeSeries.backward_difference dt flux emf ->
  TimeSeries.backward_difference dt (flux ++ [phi])
    (emf ++ [- (phi - nth (length flux - 1) flux 0) / dt]).
Proof.
  intros Hne [HL H].
  assert (0 < length flux)%nat by (destruct flux; [congruence | simpl; lia]).
  split; [rewrite !length_app; simpl; lia|].
  intros n Hn. rewrite length_app in Hn. simpl in Hn.
  destruct (Nat.eq_dec n (length flux)) as [->|Hneq].
  - rewrite <- HL at 1. rewrite nth_middle.
    destruct (length flux) as [|k] eqn:E; [lia|].
    assert (Hm : nth (S k) (flux ++ [phi]) 0 = phi)
      by (rewrite <- E; apply nth_middle).
    rewrite Hm. rewrite app_nth1 by lia.
    replace (S k - 1)%nat with k by lia. reflexivity.
  - rewrite app_nth1 by lia. rewrite H by lia.
    destruct n as [|k]; [reflexivity|].
    now rewrite !app_nth1 by lia.
Qed.

Section Sim2DFacts.

Import Sim2D.

Variable p : Params.

Lemma B_field_some (x : R) :
  softened p x <> 0 ->
  B_field p x = Some (mu_0 * m p / (2 * PI * softened p x)).
Proof.
  intro H. unfold B_field. apply pydiv_some.
  pose proof PI_RGT_0. nra.
Qed.

(** One call of [update] at frame [k] on a history of [k] samples. *)
Lemma update_step (k : nat) (st : State) :
  dt p <> 0 -> softened p (x_at p k) <> 0 ->
  length (flux_vals st) = k ->
  TimeSeries.backward_difference (dt p) (flux_vals st) (emf_vals st) ->
  exists st1,
    update p k st = Some st1 /\
    length (flux_vals st1) = S k /\
    TimeSeries.backward_difference (dt p) (flux_vals st1) (emf_vals st1).
Proof.
  intros Hdt Hs HL Hbd. unfold update.
  fold (x_at p k). rewrite (B_field_some _ Hs). cbn [bind].
  set (flux := N p * A p * _).
  destruct k as [|k].
  - cbn [Nat.eqb bind]. eexists. split; [reflexivity|]. cbn [flux_vals emf_vals].
    destruct Hbd as [HLe _].
    destruct (flux_vals st); [| discriminate].
    destruct (emf_vals st); [| discriminate].
    split; [reflexivity | apply backward_difference_first].
  - assert (Hne : flux_vals st <> [])
      by (intro E; rewrite E in HL; discriminate).
    cbn [Nat.eqb]. rewrite neg_index_snoc_1, (neg_index_snoc_2 _ _ Hne).
    cbn [bind]. rewrite (pydiv_some _ _ Hdt). cbn [bind].
    eexists. split; [reflexivity|]. cbn [flux_vals emf_vals]. split.
    + rewrite length_app, HL. simpl. lia.
    + now apply backward_difference_snoc.
Qed.

Lemma run_backward_difference (n : nat) :
  dt p <> 0 ->
  (forall k, (k < n)%nat -> softened p (x_at p k) <> 0) ->
  exists st,
    run p n = Some st /\
    length (flux_vals st) = n /\
    TimeSeries.backward_difference (dt p) (flux_vals st) (emf_vals st).
Proof.
  intros Hdt. induction n as [|n IH]; intro Hs.
  - exists empty. split; [reflexivity|]. split; [reflexivity|].
    apply backward_difference_nil.
  - destruct IH as (st & E & HL & Hbd); [intros k Hk; apply Hs; lia|].
    destruct (update_step n st Hdt (Hs n (Nat.lt_succ_diag_r n)) HL Hbd)
      as (st1 & E1 & HL1 & Hbd1).
    exists st1. simpl. rewrite E. cbn [bind]. auto.
Qed.

End Sim2DFacts.

(** With the constants of the script the magnet is at [-0.5 + k / 1000]
    at frame [k]; up to frame 1000 it has not passed the coil and the
    softened denominator is positive. *)
Lemma script_softened_pos (k : nat) :
  (k <= 1000)%nat -> 0 < Sim2D.softened Sim2D.params (Sim2D.x_at Sim2D.params k).
Proof.
  intro Hk. unfold Sim2D.softened, Sim2D.x_at. simpl.
  assert (H : 0 <= INR k <= 1000).
  { split; [apply pos_INR|]. apply le_INR in Hk.
    replace 1000 with (INR 1000); [exact Hk|].
    rewrite INR_IZR_INZ. reflexivity. }
  set (r := 1 / 2 - (- (1 / 2) + 2 / 100 * (INR k * (5 / 100)))).
  assert (Hr : 0 <= r) by (unfold r; lra).
  assert (0 <= r * (r * (r * 1))) by (repeat apply Rmult_le_pos; lra).
  lra.
Qed.


(** ** [2d_sim_gemini.py]: one call of [animate] *)

Section GeminiFacts.

Import Sim2DGemini.

Variable p : Params.
Hypothesis width_nonzero : coil_width p <> 0.
Hypothesis resistance_nonzero : coil_resistance p <> 0.






End GeminiFacts.



(** ** Magnet motion and wrap-around *)

Lemma field_move_bounds (m : Field.Magnet) (z : R) :
  0 <= Field.magnet_speed m ->
  Field.magnet_final_z m <= Field.magnet_initial_z m ->
  Field.magnet_final_z m <= z <= Field.magnet_initial_z m ->
  Field.magnet_final_z m <= Field.move m z <= Field.magnet_initial_z m.
Proof.
  intros Hs Hb Hz. unfold Field.move.
  destruct (Rlt_dec (z - Field.magnet_speed m) (Field.magnet_final_z m)); lra.
Qed.



(** ** Lorentzian flux model of [2d_sim_gemini.py] *)



(** ** Lenz indicator of [2d_sim_gemini.py] *)

Lemma sign_neg (x : R) : x < 0 -> sign x = -1.
Proof. intro H. unfold sign. decide_reals. Qed.




(** * Further properties of the scripts *)

(** ** Algebra of the Biot-Savart evaluators *)

Lemma vscale_vadd (c : R) (a b : Vec3) :
  vscale c (vadd a b) = vadd (vscale c a) (vscale c b).
Proof. unfold vscale, vadd; simpl; f_equal; ring. Qed.

Lemma vscale_vzero (c : R) : vscale c vzero = vzero.
Proof. unfold vscale, vzero; simpl; f_equal; ring. Qed.

Lemma vadd_assoc (a b c : Vec3) : vadd (vadd a b) c = vadd a (vadd b c).
Proof. unfold vadd; simpl; f_equal; ring. Qed.

Lemma vadd_vzero_l (a : Vec3) : vadd vzero a = a.
Proof. destruct a; unfold vadd; simpl; f_equal; lra. Qed.

Lemma fold_vadd_acc (l : list Vec3) :
  forall acc, fold_left vadd l acc = vadd acc (vsum l).
Proof.
  unfold vsum. induction l as [|a l IH]; intro acc.
  - simpl. now rewrite vadd_vzero_r.
  - simpl. rewrite IH, (IH (vadd vzero a)), vadd_vzero_l.
    apply vadd_assoc.
Qed.

Lemma vsum_app (l1 l2 : list Vec3) :
  vsum (l1 ++ l2) = vadd (vsum l1) (vsum l2).
Proof.
  unfold vsum at 1. rewrite fold_left_app. apply fold_vadd_acc.
Qed.

Lemma vsum_scale {S : Type} (c : R) (f : S -> Vec3) (l : list S) :
  vsum (map (fun s => vscale c (f s)) l) = vscale c (vsum (map f l)).
Proof.
  induction l as [|s l IH].
  - unfold vsum; simpl. now rewrite vscale_vzero.
  - change (map (fun s0 => vscale c (f s0)) (s :: l))
      with ([vscale c (f s)] ++ map (fun s0 => vscale c (f s0)) l).
    change (map f (s :: l)) with ([f s] ++ map f l).
    rewrite !vsum_app, IH, vscale_vadd. f_equal.
    unfold vsum; simpl. now rewrite !vadd_vzero_l.
Qed.

Lemma segment_dB_scale (c km : R) (pt dl origin : Vec3) :
  Field.segment_dB (c * km) pt dl origin
  = vscale c (Field.segment_dB km pt dl origin).
Proof.
  unfold Field.segment_dB, vscale; simpl. f_equal; ring.
Qed.

Lemma coil_field_rows (pt : Vec3) (r_primes dl_vectors : list Vec3) (km : R) :
  Field.magnetic_field_from_coil_at_point pt r_primes dl_vectors km
  = vsum (map (fun s => Field.segment_dB km pt (fst s) (snd s))
              (combine dl_vectors r_primes)).
Proof.
  unfold Field.magnetic_field_from_coil_at_point.
  now rewrite dB_contributions_rows.
Qed.

(** Scaling the constant [km] (that is, the current) by [c] scales the
    field by [c], at a single point and over a whole lattice. *)
Theorem coil_field_linear_in_km (c km : R) (r_primes dl_vectors : list Vec3) :
  length dl_vectors = length r_primes ->
  (forall pt,
     Field.magnetic_field_from_coil_at_point pt r_primes dl_vectors (c * km)
     = vscale c
         (Field.magnetic_field_from_coil_at_point pt r_primes dl_vectors km)) /\
  (forall lattice,
     Grid.B lattice r_primes dl_vectors (c * km)
     = Grid.gmap (vscale c) (Grid.B lattice r_primes dl_vectors km)).
Proof.
  intros _.
  assert (H : forall pt,
     Field.magnetic_field_from_coil_at_point pt r_primes dl_vectors (c * km)
     = vscale c
         (Field.magnetic_field_from_coil_at_point pt r_primes dl_vectors km)).
  { intro pt. rewrite !coil_field_rows.
    rewrite <- (vsum_scale c
      (fun s => Field.segment_dB km pt (fst s) (snd s))).
    f_equal. apply map_ext. intro s. apply segment_dB_scale. }
  split; [exact H|].
  intro lattice. rewrite !grid_B_pointwise, gmap_gmap.
  apply gmap_ext. exact H.
Qed.

Lemma coil_field_linear_in_km_witness :
  length [mkVec 0 1 0; mkVec (-1) 0 0] = length [mkVec 1 0 0; mkVec 0 1 0] /\
  Field.magnetic_field_from_coil_at_point
    (mkVec 0 0 1) [mkVec 1 0 0; mkVec 0 1 0] [mkVec 0 1 0; mkVec (-1) 0 0] (2 * 30)
  = vscale 2
      (Field.magnetic_field_from_coil_at_point
         (mkVec 0 0 1) [mkVec 1 0 0; mkVec 0 1 0] [mkVec 0 1 0; mkVec (-1) 0 0] 30).
Proof.
  split; [reflexivity|].
  apply (proj1 (coil_field_linear_in_km 2 30 [mkVec 1 0 0; mkVec 0 1 0]
                  [mkVec 0 1 0; mkVec (-1) 0 0] eq_refl)).
Defined.

(** Superposition: the field of two coils laid end to end in the arrays
    is the sum of their fields. *)
Theorem coil_field_superposition
    (pt : Vec3) (rp1 rp2 dl1 dl2 : list Vec3) (km : R) :
  length dl1 = length rp1 -> length dl2 = length rp2 ->
  Field.magnetic_field_from_coil_at_point pt (rp1 ++ rp2) (dl1 ++ dl2) km
  = vadd (Field.magnetic_field_from_coil_at_point pt rp1 dl1 km)
         (Field.magnetic_field_from_coil_at_point pt rp2 dl2 km).
Proof.
  intros L _. rewrite !coil_field_rows.
  rewrite combine_app_same by assumption.
  now rewrite map_app, vsum_app.
Qed.

Lemma coil_field_superposition_witness :
  length [mkVec 0 1 0] = length [mkVec 1 0 0] /\
  length [mkVec (-1) 0 0] = length [mkVec 0 1 1] /\
  Field.magnetic_field_from_coil_at_point
    (mkVec 0 0 2) ([mkVec 1 0 0] ++ [mkVec 0 1 1]) ([mkVec 0 1 0] ++ [mkVec (-1) 0 0]) 3
  = vadd (Field.magnetic_field_from_coil_at_point
            (mkVec 0 0 2) [mkVec 1 0 0] [mkVec 0 1 0] 3)
         (Field.magnetic_field_from_coil_at_point
            (mkVec 0 0 2) [mkVec 0 1 1] [mkVec (-1) 0 0] 3).
Proof.
  split; [reflexivity|]. split; [reflexivity|].
  apply (coil_field_superposition (mkVec 0 0 2) [mkVec 1 0 0] [mkVec 0 1 1]
           [mkVec 0 1 0] [mkVec (-1) 0 0] 3); reflexivity.
Defined.

Lemma vsub_shift (a b t : Vec3) : vsub (vadd a t) (vadd b t) = vsub a b.
Proof. unfold vsub, vadd; simpl; f_equal; ring. Qed.

Lemma combine_map_r {A B C : Type} (g : B -> C) (l1 : list A) (l2 : list B) :
  combine l1 (map g l2) = map (fun s => (fst s, g (snd s))) (combine l1 l2).
Proof.
  revert l2. induction l1 as [|a l1 IH]; intros [|b l2]; try reflexivity.
  simpl. now rewrite IH.
Qed.

(** The field depends only on the position of the field point relative
    to the coil: moving both by the same vector changes nothing. *)
Theorem coil_field_translation
    (t pt : Vec3) (r_primes dl_vectors : list Vec3) (km : R) :
  length dl_vectors = length r_primes ->
  Field.magnetic_field_from_coil_at_point
    (vadd pt t) (map (fun o => vadd o t) r_primes) dl_vectors km
  = Field.magnetic_field_from_coil_at_point pt r_primes dl_vectors km.
Proof.
  intros _. rewrite !coil_field_rows, combine_map_r, map_map. f_equal.
  apply map_ext. intros [dl o]. simpl.
  unfold Field.segment_dB. now rewrite vsub_shift.
Qed.

Lemma coil_field_translation_witness :
  length [mkVec 0 1 0; mkVec (-1) 0 0] = length [mkVec 1 0 0; mkVec 0 1 0] /\
  Field.magnetic_field_from_coil_at_point
    (vadd (mkVec 0 0 1) (mkVec 5 6 7))
    (map (fun o => vadd o (mkVec 5 6 7)) [mkVec 1 0 0; mkVec 0 1 0])
    [mkVec 0 1 0; mkVec (-1) 0 0] 30
  = Field.magnetic_field_from_coil_at_point
      (mkVec 0 0 1) [mkVec 1 0 0; mkVec 0 1 0] [mkVec 0 1 0; mkVec (-1) 0 0] 30.
Proof.
  split; [reflexivity|].
  apply (coil_field_translation (mkVec 5 6 7) (mkVec 0 0 1)
           [mkVec 1 0 0; mkVec 0 1 0] [mkVec 0 1 0; mkVec (-1) 0 0] 30 eq_refl).
Defined.

(** ** Algebra of the dipole evaluator *)

(** The dipole field is linear in the moment: scaling the moment scales
    the field (a negative factor flips the polarity), and the field of a
    sum of moments is the sum of the fields. *)
Theorem dipole_linear_in_moment (r_point r_dipole : Vec3) :
  (forall c m,
     Field.magnetic_field_from_dipole r_point r_dipole (vscale c m)
     = vscale c (Field.magnetic_field_from_dipole r_point r_dipole m)) /\
  (forall m1 m2,
     Field.magnetic_field_from_dipole r_point r_dipole (vadd m1 m2)
     = vadd (Field.magnetic_field_from_dipole r_point r_dipole m1)
            (Field.magnetic_field_from_dipole r_point r_dipole m2)).
Proof.
  unfold Field.magnetic_field_from_dipole.
  destruct (Req_EM_T (norm (vsub r_point r_dipole)) 0) as [E|N]; split; intros.
  - unfold vscale; simpl; f_equal; ring.
  - unfold vadd; simpl; f_equal; ring.
  - unfold vdiv, vscale, vmulr, vsub, dot; simpl. f_equal; unfold Rdiv; ring.
  - unfold vdiv, vscale, vmulr, vsub, vadd, dot; simpl.
    f_equal; unfold Rdiv; ring.
Qed.

Lemma norm_vscale_opp (r : Vec3) : norm (vscale (-1) r) = norm r.
Proof. unfold norm, vscale; simpl. f_equal. ring. Qed.

(** The dipole field is even: two field points mirrored through the
    dipole see the same field. *)
Theorem dipole_point_reflection (r_dipole r m : Vec3) :
  Field.magnetic_field_from_dipole (vadd r_dipole r) r_dipole m
  = Field.magnetic_field_from_dipole (vsub r_dipole r) r_dipole m.
Proof.
  unfold Field.magnetic_field_from_dipole.
  assert (E1 : vsub (vadd r_dipole r) r_dipole = r)
    by (destruct r; unfold vsub, vadd; simpl; f_equal; ring).
  assert (E2 : vsub (vsub r_dipole r) r_dipole = vscale (-1) r)
    by (unfold vsub, vscale; simpl; f_equal; ring).
  rewrite E1, E2, norm_vscale_opp.
  destruct (Req_EM_T (norm r) 0) as [E|N]; [reflexivity|].
  unfold vdiv, vscale, vmulr, vsub, dot; simpl. f_equal; unfold Rdiv; ring.
Qed.

Lemma mu_0_over_4pi : Field.mu_0 / (4 * PI) = 1 / 10 ^ 7.
Proof. unfold Field.mu_0. pose proof PI_RGT_0. field. lra. Qed.

Lemma norm_on_axis (cx cy cz z : R) :
  norm (vsub (mkVec cx cy cz) (mkVec cx cy z)) = Rabs (cz - z).
Proof.
  unfold norm, vsub; simpl.
  replace ((cx - cx) * (cx - cx) + (cy - cy) * (cy - cy) + (cz - z) * (cz - z))
    with (Rsqr (cz - z)) by (unfold Rsqr; ring).
  apply sqrt_Rsqr_abs.
Qed.

(** On the axis through the dipole (same x and y, different z) the field
    is [1e-7 * (-m_x, -m_y, 2 m_z) / |dz|^3]. *)
Lemma dipole_on_axis (cx cy cz z : R) (m : Vec3) :
  z <> cz ->
  Field.magnetic_field_from_dipole (mkVec cx cy cz) (mkVec cx cy z) m
  = vdiv (vscale (1 / 10 ^ 7) (mkVec (- vx m) (- vy m) (2 * vz m)))
         (Rabs (cz - z) ^ 3).
Proof.
  intro Hz. unfold Field.magnetic_field_from_dipole.
  rewrite norm_on_axis.
  assert (Hn : Rabs (cz - z) <> 0) by (apply Rabs_no_R0; lra).
  destruct (Req_EM_T (Rabs (cz - z)) 0) as [E|_]; [contradiction|].
  rewrite mu_0_over_4pi.
  set (n := Rabs (cz - z)) in *.
  assert (Hsq : (cz - z) * (cz - z) = n * n).
  { unfold n. rewrite <- Rabs_mult. symmetry. apply Rabs_pos_eq.
    apply Rle_0_sqr. }
  unfold vdiv, vscale, vmulr, vsub, dot; simpl.
  replace (cx - cx) with 0 by ring. replace (cy - cy) with 0 by ring.
  f_equal.
  - field. exact Hn.
  - field. exact Hn.
  - replace (3 * ((cz - z) / n)
             * (vx m * (0 / n) + vy m * (0 / n) + vz m * ((cz - z) / n))
             - vz m)
      with (2 * vz m); [reflexivity|].
    replace (3 * ((cz - z) / n)
             * (vx m * (0 / n) + vy m * (0 / n) + vz m * ((cz - z) / n)))
      with (3 * vz m * (((cz - z) * (cz - z)) / (n * n)))
      by (field; exact Hn).
    rewrite Hsq. field. exact Hn.
Qed.

Lemma norm_vdiv_vscale (c d : R) (v : Vec3) :
  0 <= c -> 0 < d -> norm (vdiv (vscale c v) d) = c * norm v / d.
Proof.
  intros Hc Hd. unfold norm, vdiv, vscale; simpl.
  set (S := vx v * vx v + vy v * vy v + vz v * vz v).
  assert (HS : 0 <= S).
  { unfold S. pose proof (Rle_0_sqr (vx v)). pose proof (Rle_0_sqr (vy v)).
    pose proof (Rle_0_sqr (vz v)). unfold Rsqr in *. lra. }
  assert (Hk : 0 <= c / d) by (apply Rmult_le_pos; [lra|];
                               left; now apply Rinv_0_lt_compat).
  replace (c * vx v / d * (c * vx v / d) + c * vy v / d * (c * vy v / d)
           + c * vz v / d * (c * vz v / d))
    with ((c / d) * (c / d) * S) by (unfold S; field; lra).
  rewrite sqrt_mult by (try assumption; apply Rmult_le_pos; assumption).
  rewrite sqrt_square by assumption. field. lra.
Qed.

(** Every call of [animate] in [simulator_.py] puts the magnet on the
    axis through the observation point, so the magnitude it records is
    zero when the magnet is at the observation point and otherwise
    [1e-7 * sqrt(m_x^2 + m_y^2 + 4 m_z^2) / |dz|^3]: the inverse-cube law
    in the axial distance [dz]. *)
Theorem animate_records_axial_magnitude
    (m : Field.Magnet) (center : Vec3) (st : Field.State) :
  let z := Field.move m (Field.magnet_current_z st) in
  let mom := Field.magnet_magnetic_moment m in
  Field.magnet_z_positions (Field.animate m center st)
  = Field.magnet_z_positions st ++ [z] /\
  (z = vz center ->
   Field.B_magnitude_at_center (Field.animate m center st)
   = Field.B_magnitude_at_center st ++ [0]) /\
  (z <> vz center ->
   Field.B_magnitude_at_center (Field.animate m center st)
   = Field.B_magnitude_at_center st
     ++ [1 / 10 ^ 7
         * sqrt (vx mom * vx mom + vy mom * vy mom
                 + 2 * vz mom * (2 * vz mom))
         / Rabs (vz center - z) ^ 3]).
Proof.
  intros z mom. destruct center as [cx cy cz]. simpl vz.
  unfold Field.animate. cbn [Field.magnet_z_positions Field.B_magnitude_at_center].
  fold z. fold mom. simpl vx. simpl vy.
  split; [reflexivity|]. split.
  - intros ->. f_equal. f_equal.
    unfold Field.magnetic_field_from_dipole. rewrite norm_vsub_self.
    destruct (Req_EM_T 0 0) as [_|N]; [| now elim N].
    unfold norm; simpl.
    replace (0 * 0 + 0 * 0 + 0 * 0) with 0 by ring. apply sqrt_0.
  - intro Hz. f_equal. f_equal.
    rewrite (dipole_on_axis cx cy cz z mom Hz).
    rewrite norm_vdiv_vscale.
    + unfold norm; simpl. f_equal. f_equal. f_equal. ring.
    + lra.
    + apply pow_lt. apply Rabs_pos_lt. lra.
Qed.

Lemma animate_records_axial_magnitude_witness :
  Field.move Field.magnet (Field.magnet_current_z (Field.initial Field.magnet))
  <> vz (mkVec 0 0 (1 / 10)) /\
  Field.B_magnitude_at_center
    (Field.animate Field.magnet (mkVec 0 0 (1 / 10)) (Field.initial Field.magnet))
  = Field.B_magnitude_at_center (Field.initial Field.magnet)
    ++ [1 / 10 ^ 7
        * sqrt (vx (Field.magnet_magnetic_moment Field.magnet)
                * vx (Field.magnet_magnetic_moment Field.magnet)
                + vy (Field.magnet_magnetic_moment Field.magnet)
                  * vy (Field.magnet_magnetic_moment Field.magnet)
                + 2 * vz (Field.magnet_magnetic_moment Field.magnet)
                  * (2 * vz (Field.magnet_magnetic_moment Field.magnet)))
        / Rabs (vz (mkVec 0 0 (1 / 10))
                - Field.move Field.magnet
                    (Field.magnet_current_z (Field.initial Field.magnet))) ^ 3].
Proof.
  assert (H : Field.move Field.magnet
                (Field.magnet_current_z (Field.initial Field.magnet))
              <> vz (mkVec 0 0 (1 / 10))).
  { unfold Field.move. simpl. decide_reals. }
  split; [exact H|].
  exact (proj2 (proj2 (animate_records_axial_magnitude
                         Field.magnet (mkVec 0 0 (1 / 10))
                         (Field.initial Field.magnet))) H).
Defined.

(** ** The sweep of the magnet in [simulator_.py] *)

Lemma iter_animate_position (m : Field.Magnet) (center : Vec3) (n : nat) :
  Field.magnet_current_z (Nat.iter n (Field.animate m center) (Field.initial m))
  = Nat.iter n (Field.move m) (Field.magnet_initial_z m).
Proof.
  induction n as [|n IH]; [reflexivity|].
  rewrite !Nat.iter_succ. unfold Field.animate at 1.
  cbn [Field.magnet_current_z]. now rewrite IH.
Qed.

Lemma iter_move_linear (m : Field.Magnet) (n : nat) :
  0 <= Field.magnet_speed m ->
  Field.magnet_final_z m
  <= Field.magnet_initial_z m - INR n * Field.magnet_speed m ->
  Nat.iter n (Field.move m) (Field.magnet_initial_z m)
  = Field.magnet_initial_z m - INR n * Field.magnet_speed m.
Proof.
  intro Hs. induction n as [|n IH]; intro Hb.
  - simpl. lra.
  - rewrite S_INR in Hb. rewrite Nat.iter_succ. rewrite IH by lra.
    unfold Field.move.
    destruct (Rlt_dec (Field.magnet_initial_z m - INR n * Field.magnet_speed m
                       - Field.magnet_speed m) (Field.magnet_final_z m));
      rewrite S_INR; lra.
Qed.

(** From the start position the magnet descends by exactly the speed per
    call for as long as it has not passed [magnet_final_z]; the first call
    that would pass it puts the magnet back at [magnet_initial_z], and
    from then on the positions repeat with that period. *)
Theorem sweep_is_periodic (m : Field.Magnet) (center : Vec3) (n : nat) :
  0 <= Field.magnet_speed m ->
  Field.magnet_final_z m
  <= Field.magnet_initial_z m - INR n * Field.magnet_speed m ->
  Field.magnet_current_z (Nat.iter n (Field.animate m center) (Field.initial m))
  = Field.magnet_initial_z m - INR n * Field.magnet_speed m /\
  (Field.magnet_initial_z m - INR (S n) * Field.magnet_speed m
   < Field.magnet_final_z m ->
   forall j,
     Field.magnet_current_z
       (Nat.iter (j + S n) (Field.animate m center) (Field.initial m))
     = Field.magnet_current_z
         (Nat.iter j (Field.animate m center) (Field.initial m))).
Proof.
  intros Hs Hb. split.
  - rewrite iter_animate_position. now apply iter_move_linear.
  - intros Hc j. rewrite !iter_animate_position.
    rewrite Nat.iter_add. f_equal.
    rewrite Nat.iter_succ. rewrite iter_move_linear by assumption.
    unfold Field.move. rewrite S_INR in Hc.
    destruct (Rlt_dec (Field.magnet_initial_z m - INR n * Field.magnet_speed m
                       - Field.magnet_speed m) (Field.magnet_final_z m));
      [reflexivity | lra].
Qed.

(** With the constants of the script: 160 calls bring the magnet from 4
    to -4, the 161st puts it back at 4. *)
Lemma sweep_is_periodic_witness :
  0 <= Field.magnet_speed Field.magnet /\
  Field.magnet_final_z Field.magnet
  <= Field.magnet_initial_z Field.magnet - INR 160 * Field.magnet_speed Field.magnet /\
  Field.magnet_initial_z Field.magnet - INR 161 * Field.magnet_speed Field.magnet
  < Field.magnet_final_z Field.magnet /\
  Field.magnet_current_z
    (Nat.iter 160 (Field.animate Field.magnet (mkVec 0 0 (1 / 10)))
              (Field.initial Field.magnet))
  = Field.magnet_initial_z Field.magnet - INR 160 * Field.magnet_speed Field.magnet /\
  Field.magnet_current_z
    (Nat.iter (0 + 161) (Field.animate Field.magnet (mkVec 0 0 (1 / 10)))
              (Field.initial Field.magnet))
  = Field.magnet_current_z
      (Nat.iter 0 (Field.animate Field.magnet (mkVec 0 0 (1 / 10)))
                (Field.initial Field.magnet)).
Proof.
  assert (H160 : INR 160 = 160) by (rewrite INR_IZR_INZ; reflexivity).
  assert (H161 : INR 161 = 161) by (rewrite INR_IZR_INZ; reflexivity).
  assert (Hs : 0 <= Field.magnet_speed Field.magnet) by (simpl; lra).
  assert (Hb : Field.magnet_final_z Field.magnet
               <= Field.magnet_initial_z Field.magnet
                  - INR 160 * Field.magnet_speed Field.magnet)
    by (rewrite H160; simpl; lra).
  assert (Hc : Field.magnet_initial_z Field.magnet
               - INR 161 * Field.magnet_speed Field.magnet
               < Field.magnet_final_z Field.magnet)
    by (rewrite H161; simpl; lra).
  split; [exact Hs|]. split; [exact Hb|]. split; [exact Hc|].
  split.
  - exact (proj1 (sweep_is_periodic Field.magnet (mkVec 0 0 (1 / 10)) 160 Hs Hb)).
  - exact (proj2 (sweep_is_periodic Field.magnet (mkVec 0 0 (1 / 10)) 160 Hs Hb)
                 Hc 0%nat).
Defined.

(** After [n] calls of [animate] both logs hold [n] entries, every logged
    position lies between the two bounds, every logged magnitude is
    non-negative, and the last logged position is the current one. *)
Theorem animate_logs (m : Field.Magnet) (center : Vec3) (n : nat) :
  0 <= Field.magnet_speed m ->
  Field.magnet_final_z m <= Field.magnet_initial_z m ->
  let st := Nat.iter n (Field.animate m center) (Field.initial m) in
  length (Field.magnet_z_positions st) = n /\
  length (Field.B_magnitude_at_center st) = n /\
  Forall (fun z => Field.magnet_final_z m <= z <= Field.magnet_initial_z m)
         (Field.magnet_z_positions st) /\
  Forall (fun b => 0 <= b) (Field.B_magnitude_at_center st) /\
  last (Field.magnet_z_positions st) (Field.magnet_initial_z m)
  = Field.magnet_current_z st.
Proof.
  intros Hs Hb. induction n as [|n IH].
  - simpl. repeat split; constructor.
  - cbn zeta in *. rewrite Nat.iter_succ.
    set (st := Nat.iter n (Field.animate m center) (Field.initial m)) in *.
    destruct IH as (L1 & L2 & F1 & F2 & _).
    assert (Hz : Field.magnet_final_z m <= Field.magnet_current_z st
                 <= Field.magnet_initial_z m).
    { unfold st. rewrite iter_animate_position.
      clear -Hs Hb.
      induction n as [|k IHk]; [simpl; lra|].
      rewrite Nat.iter_succ. now apply field_move_bounds. }
    unfold Field.animate.
    cbn [Field.magnet_z_positions Field.B_magnitude_at_center
         Field.magnet_current_z].
    rewrite !length_app, L1, L2. simpl length.
    repeat split; try lia.
    + apply Forall_app. split; [assumption|].
      constructor; [| constructor]. now apply field_move_bounds.
    + apply Forall_app. split; [assumption|].
      constructor; [| constructor]. unfold norm. apply sqrt_pos.
    + apply last_last.
Qed.

Lemma animate_logs_witness :
  0 <= Field.magnet_speed Field.magnet /\
  Field.magnet_final_z Field.magnet <= Field.magnet_initial_z Field.magnet /\
  length (Field.magnet_z_positions
            (Nat.iter 5 (Field.animate Field.magnet (mkVec 0 0 (1 / 10)))
                      (Field.initial Field.magnet))) = 5%nat.
Proof.
  assert (Hs : 0 <= Field.magnet_speed Field.magnet) by (simpl; lra).
  assert (Hb : Field.magnet_final_z Field.magnet
               <= Field.magnet_initial_z Field.magnet) by (simpl; lra).
  split; [exact Hs|]. split; [exact Hb|].
  exact (proj1 (animate_logs Field.magnet (mkVec 0 0 (1 / 10)) 5 Hs Hb)).
Defined.

(** ** Shape of the generated coil *)

Lemma in_combine3_map {T : Type} (f g h : T -> R) (l : list T) (a b c : R) :
  In (a, (b, c)) (combine (map f l) (combine (map g l) (map h l))) ->
  exists t, In t l /\ a = f t /\ b = g t /\ c = h t.
Proof.
  induction l as [|t l IH]; simpl; [tauto|].
  intros [E | Hin].
  - injection E as <- <- <-. exists t. auto.
  - destruct (IH Hin) as (t' & Ht & ?). exists t'. auto.
Qed.

Lemma ring_origin_shape (p : Coil.Params) (z : R) (o : Vec3) :
  In o (Coil.ring_origins p z) ->
  vx o * vx o + vy o * vy o = Coil.coils_radius p * Coil.coils_radius p
  /\ vz o = z.
Proof.
  unfold Coil.ring_origins, stack3, full_like, Coil.coil_pos_x, Coil.coil_pos_y.
  rewrite map_map. intro H. apply in_map_iff in H.
  destruct H as ([a [b c]] & <- & Hin). simpl.
  apply in_combine3_map in Hin. destruct Hin as (t & _ & -> & -> & ->).
  split; [| reflexivity].
  pose proof (sin2_cos2 t) as H. unfold Rsqr in H.
  replace (Coil.coils_radius p * cos t * (Coil.coils_radius p * cos t)
           + Coil.coils_radius p * sin t * (Coil.coils_radius p * sin t))
    with (Coil.coils_radius p * Coil.coils_radius p
          * (sin t * sin t + cos t * cos t)) by ring.
  rewrite H. ring.
Qed.

Lemma ring_dl_planar (dlx dly : list R) (d : Vec3) :
  In d (Coil.ring_dl dlx dly) -> vz d = 0.
Proof.
  unfold Coil.ring_dl, stack3, zeros_like. intro H.
  apply in_map_iff in H. destruct H as ([a [b c]] & <- & Hin). simpl.
  apply in_combine_r, in_combine_r in Hin.
  apply in_map_iff in Hin. now destruct Hin as (? & <- & _).
Qed.

Lemma build_shape (p : Coil.Params) (zs : list R) (rp dl : list Vec3) :
  Coil.build p zs = Some (rp, dl) ->
  (forall o, In o rp ->
     vx o * vx o + vy o * vy o = Coil.coils_radius p * Coil.coils_radius p
     /\ In (vz o) zs) /\
  (forall d, In d dl -> vz d = 0).
Proof.
  unfold Coil.build.
  destruct (Coil.dl_x p) as [dlx|]; [| discriminate].
  destruct (Coil.dl_y p) as [dly|]; [| discriminate].
  intro E. injection E as <- <-. split.
  - intros o Ho. apply in_concat in Ho. destruct Ho as (ring & Hr & Ho).
    apply in_map_iff in Hr. destruct Hr as (z & <- & Hz).
    destruct (ring_origin_shape p z o Ho) as [Hc ->]. auto.
  - intros d Hd. apply in_concat in Hd. destruct Hd as (ring & Hr & Hd).
    apply in_map_iff in Hr. destruct Hr as (z & <- & _).
    now apply ring_dl_planar in Hd.
Qed.

(** In both simulator scripts every segment origin lies on the cylinder
    of radius [coils_radius] around the z axis, at one of the ring
    offsets ([k * coils_step] with [k < coils_number] in [simulator_.py],
    [k <= coils_number] in [simulator.py]), and every segment vector lies
    in the plane of its ring. *)
Theorem coil_on_cylinder (p : Coil.Params) :
  (0 < Coil.coils_points p)%nat ->
  (exists rp dl,
     SimulatorAnim.geometry p = Some (rp, dl) /\
     (forall o, In o rp ->
        vx o * vx o + vy o * vy o = Coil.coils_radius p * Coil.coils_radius p
        /\ exists k, (k < Coil.coils_number p)%nat
                     /\ vz o = INR k * Coil.coils_step p) /\
     (forall d, In d dl -> vz d = 0)) /\
  (Coil.coils_step p <> 0 ->
   exists rp dl,
     Simulator.geometry p = Some (rp, dl) /\
     (forall o, In o rp ->
        vx o * vx o + vy o * vy o = Coil.coils_radius p * Coil.coils_radius p
        /\ exists k, (k <= Coil.coils_number p)%nat
                     /\ vz o = 0 + INR k * Coil.coils_step p) /\
     (forall d, In d dl -> vz d = 0)).
Proof.
  intro HP. split.
  - destruct (anim_geometry_count p HP) as (rp & dl & E & _).
    exists rp, dl. split; [exact E|].
    destruct (build_shape p _ rp dl E) as [Ho Hd]. split; [| exact Hd].
    intros o Hin. destruct (Ho o Hin) as [Hc Hz]. split; [exact Hc|].
    unfold SimulatorAnim.z_positions in Hz. apply in_map_iff in Hz.
    destruct Hz as (k & Hk & Hs). apply in_seq in Hs.
    exists k. split; [lia | congruence].
  - intro Hs.
    destruct (simulator_geometry_count p HP Hs) as (rp & dl & E & _).
    exists rp, dl. split; [exact E|].
    unfold Simulator.geometry in E.
    rewrite (simulator_z_positions p Hs) in E.
    destruct (build_shape p _ rp dl E) as [Ho Hd]. split; [| exact Hd].
    intros o Hin. destruct (Ho o Hin) as [Hc Hz]. split; [exact Hc|].
    apply in_map_iff in Hz. destruct Hz as (k & Hk & Hq). apply in_seq in Hq.
    exists k. split; [lia | congruence].
Qed.

Lemma coil_on_cylinder_witness :
  (0 < Coil.coils_points Simulator.params)%nat /\
  Coil.coils_step Simulator.params <> 0 /\
  (exists rp dl,
     SimulatorAnim.geometry Simulator.params = Some (rp, dl) /\
     (forall o, In o rp ->
        vx o * vx o + vy o * vy o
        = Coil.coils_radius Simulator.params * Coil.coils_radius Simulator.params
        /\ exists k, (k < Coil.coils_number Simulator.params)%nat
                     /\ vz o = INR k * Coil.coils_step Simulator.params) /\
     (forall d, In d dl -> vz d = 0)) /\
  (exists rp dl,
     Simulator.geometry Simulator.params = Some (rp, dl) /\
     (forall o, In o rp ->
        vx o * vx o + vy o * vy o
        = Coil.coils_radius Simulator.params * Coil.coils_radius Simulator.params
        /\ exists k, (k <= Coil.coils_number Simulator.params)%nat
                     /\ vz o = 0 + INR k * Coil.coils_step Simulator.params) /\
     (forall d, In d dl -> vz d = 0)).
Proof.
  assert (HP : (0 < Coil.coils_points Simulator.params)%nat) by (simpl; lia).
  assert (Hs : Coil.coils_step Simulator.params <> 0) by (simpl; lra).
  split; [exact HP|]. split; [exact Hs|]. split.
  - exact (proj1 (coil_on_cylinder Simulator.params HP)).
  - exact (proj2 (coil_on_cylinder Simulator.params HP) Hs).
Defined.

Lemma nth_diff (l : list R) :
  forall k, (S k < length l)%nat ->
    nth k (diff l) 0 = nth (S k) l 0 - nth k l 0.
Proof.
  induction l as [|a [|b l] IH]; intros k Hk; simpl in Hk; try lia.
  change (diff (a :: b :: l)) with ((b - a) :: diff (b :: l)).
  destruct k as [|k]; [reflexivity|].
  change (nth k (diff (b :: l)) 0 = nth (S k) (b :: l) 0 - nth k (b :: l) 0).
  apply IH. simpl. lia.
Qed.

Lemma cos_shift_2PI (t : R) : cos (t + 2 * PI) = cos t.
Proof. rewrite cos_plus, cos_2PI, sin_2PI. ring. Qed.

Lemma sin_shift_2PI (t : R) : sin (t + 2 * PI) = sin t.
Proof. rewrite sin_plus, cos_2PI, sin_2PI. ring. Qed.

Section Polygon.

Import Coil.

Variable p : Params.
Hypothesis points_pos : (0 < coils_points p)%nat.

(** The angular step [2 pi / P] of [thetas]. *)
Local Abbreviation theta := ((2 * PI - 0) / INR (coils_points p)).

Lemma INR_points_pos : 0 < INR (coils_points p).
Proof. now apply lt_0_INR. Qed.

Lemma thetas_nth (k : nat) :
  (k < coils_points p)%nat -> nth k (thetas p) 0 = 0 + INR k * theta.
Proof.
  intro Hk. unfold thetas, linspace_open.
  rewrite (nth_indep _ 0 (0 + INR 0 * ((2 * PI - 0) / INR (coils_points p))))
    by (rewrite length_map, length_seq; assumption).
  rewrite (map_nth (fun k => 0 + INR k * ((2 * PI - 0) / INR (coils_points p)))).
  now rewrite seq_nth.
Qed.

Lemma full_turn : INR (coils_points p) * theta = 2 * PI.
Proof. pose proof INR_points_pos. field. lra. Qed.

(** Entry [k] of an array of ring coordinates closed by its first entry:
    the coordinate at angle [k * theta], also for [k = P]. *)
Lemma closed_ring_nth (f : R -> R) (k : nat) :
  (forall t, f (t + 2 * PI) = f t) ->
  (k <= coils_points p)%nat ->
  nth k (map f (thetas p) ++ [nth 0 (map f (thetas p)) 0]) 0
  = f (0 + INR k * theta).
Proof.
  intros Hper Hk.
  assert (L : length (map f (thetas p)) = coils_points p)
    by (rewrite length_map; apply length_thetas).
  assert (Hn : forall j, (j < coils_points p)%nat ->
                nth j (map f (thetas p)) 0 = f (0 + INR j * theta)).
  { intros j Hj. rewrite (nth_indep _ 0 (f 0)) by lia.
    rewrite map_nth. now rewrite thetas_nth. }
  destruct (Nat.eq_dec k (coils_points p)) as [->|Hne].
  - rewrite <- L at 1. rewrite nth_middle. rewrite Hn by assumption.
    rewrite full_turn. simpl INR.
    replace (0 + 0 * theta) with 0 by ring.
    replace (0 + 2 * PI) with (0 + 2 * PI) by ring.
    symmetry. apply Hper.
  - rewrite app_nth1 by lia. apply Hn. lia.
Qed.

Lemma diff_append_first_nth (f : R -> R) (k : nat) :
  (forall t, f (t + 2 * PI) = f t) ->
  (k < coils_points p)%nat ->
  exists d,
    diff_append_first (map f (thetas p)) = Some d /\
    nth k d 0 = f (0 + INR (S k) * theta) - f (0 + INR k * theta).
Proof.
  intros Hper Hk.
  assert (L : length (map f (thetas p)) = coils_points p)
    by (rewrite length_map; apply length_thetas).
  destruct (map f (thetas p)) as [|a0 l] eqn:E; [simpl in L; lia|].
  exists (diff ((a0 :: l) ++ [a0])). split; [reflexivity|].
  rewrite nth_diff by (rewrite length_app; simpl in *; lia).
  change a0 with (nth 0 (a0 :: l) 0) at 2 4.
  rewrite <- E.
  now rewrite !closed_ring_nth by (assumption || lia).
Qed.

(** Every segment of the polygon has the same length: the chord of the
    angle [2 pi / P]. *)
Lemma chord_length (k : nat) :
  (k < coils_points p)%nat ->
  exists dlx dly,
    dl_x p = Some dlx /\ dl_y p = Some dly /\
    nth k dlx 0 * nth k dlx 0 + nth k dly 0 * nth k dly 0
    = 2 * (coils_radius p * coils_radius p) * (1 - cos theta).
Proof.
  intro Hk.
  destruct (diff_append_first_nth (fun t => coils_radius p * cos t) k)
    as (dlx & Ex & Hx); [ | assumption | ].
  { intro t. now rewrite cos_shift_2PI. }
  destruct (diff_append_first_nth (fun t => coils_radius p * sin t) k)
    as (dly & Ey & Hy); [ | assumption | ].
  { intro t. now rewrite sin_shift_2PI. }
  exists dlx, dly. split; [exact Ex|]. split; [exact Ey|].
  rewrite Hx, Hy, S_INR.
  set (th := theta). set (a := 0 + INR k * th).
  replace (0 + (INR k + 1) * th) with (a + th) by (unfold a; ring).
  pose proof (cos_minus (a + th) a) as Hc.
  replace (a + th - a) with th in Hc by ring.
  pose proof (sin2_cos2 a) as H1. pose proof (sin2_cos2 (a + th)) as H2.
  unfold Rsqr in H1, H2. rewrite Hc.
  set (r := coils_radius p) in *.
  set (c1 := cos (a + th)) in *. set (s1 := sin (a + th)) in *.
  set (c0 := cos a) in *. set (s0 := sin a) in *.
  replace ((r * c1 - r * c0) * (r * c1 - r * c0)
           + (r * s1 - r * s0) * (r * s1 - r * s0))
    with (r * r * ((s1 * s1 + c1 * c1) + (s0 * s0 + c0 * c0)
                   - 2 * (c1 * c0 + s1 * s0))) by ring.
  rewrite H1, H2. ring.
Qed.

End Polygon.

(** The loop is a regular polygon: all [coils_points] segments have the
    same length, the chord of the angle [2 pi / coils_points] on the
    circle of radius [coils_radius]. *)
Theorem segments_equal_length (p : Coil.Params) :
  (0 < Coil.coils_points p)%nat ->
  exists dlx dly,
    Coil.dl_x p = Some dlx /\ Coil.dl_y p = Some dly /\
    forall k, (k < Coil.coils_points p)%nat ->
      nth k dlx 0 * nth k dlx 0 + nth k dly 0 * nth k dly 0
      = 2 * (Coil.coils_radius p * Coil.coils_radius p)
        * (1 - cos ((2 * PI - 0) / INR (Coil.coils_points p))).
Proof.
  intro HP.
  destruct (dl_x_some p HP) as (dlx & Ex & _).
  destruct (dl_y_some p HP) as (dly & Ey & _).
  exists dlx, dly. split; [exact Ex|]. split; [exact Ey|].
  intros k Hk.
  destruct (chord_length p HP k Hk) as (dlx' & dly' & Ex' & Ey' & H).
  rewrite Ex in Ex'. rewrite Ey in Ey'.
  injection Ex' as <-. injection Ey' as <-. exact H.
Qed.

Lemma segments_equal_length_witness :
  (0 < Coil.coils_points Simulator.params)%nat /\
  exists dlx dly,
    Coil.dl_x Simulator.params = Some dlx /\
    Coil.dl_y Simulator.params = Some dly /\
    forall k, (k < Coil.coils_points Simulator.params)%nat ->
      nth k dlx 0 * nth k dlx 0 + nth k dly 0 * nth k dly 0
      = 2 * (Coil.coils_radius Simulator.params
             * Coil.coils_radius Simulator.params)
        * (1 - cos ((2 * PI - 0) / INR (Coil.coils_points Simulator.params))).
Proof.
  assert (HP : (0 < Coil.coils_points Simulator.params)%nat) by (simpl; lia).
  split; [exact HP|].
  exact (segments_equal_length Simulator.params HP).
Defined.

(** ** The observation point of [simulator_.py] *)

Lemma fold_plus_acc (l : list R) :
  forall acc, fold_left Rplus l acc = acc + rsum l.
Proof.
  unfold rsum. induction l as [|a l IH]; intro acc; simpl.
  - lra.
  - rewrite IH, (IH (0 + a)). lra.
Qed.

Lemma rsum_app (l1 l2 : list R) : rsum (l1 ++ l2) = rsum l1 + rsum l2.
Proof. unfold rsum at 1. rewrite fold_left_app. apply fold_plus_acc. Qed.

Lemma rsum_scale {S : Type} (c : R) (f : S -> R) (l : list S) :
  rsum (map (fun s => c * f s) l) = c * rsum (map f l).
Proof.
  induction l as [|s l IH]; [unfold rsum; simpl; lra|].
  change (map (fun s0 => c * f s0) (s :: l))
    with ([c * f s] ++ map (fun s0 => c * f s0) l).
  change (map f (s :: l)) with ([f s] ++ map f l).
  rewrite !rsum_app, IH. unfold rsum; simpl. lra.
Qed.

(** Sums of cosines and sines over equally spaced angles telescope. *)
Lemma sum_cos_telescope (th : R) (n : nat) :
  2 * sin (th / 2) * rsum (map (fun k => cos (0 + INR k * th)) (seq 0 n))
  = sin ((INR n - 1 / 2) * th) + sin (th / 2).
Proof.
  induction n as [|n IH].
  - unfold rsum; simpl.
    replace ((0 - 1 / 2) * th) with (- (th / 2)) by field.
    rewrite sin_neg. ring.
  - rewrite seq_S, map_app, rsum_app, Rmult_plus_distr_l, IH.
    simpl map. unfold rsum at 1; simpl fold_left. rewrite S_INR.
    replace ((INR n + 1 - 1 / 2) * th) with (INR n * th + th / 2) by field.
    replace ((INR n - 1 / 2) * th) with (INR n * th - th / 2) by field.
    replace (0 + INR n * th) with (INR n * th) by ring.
    rewrite sin_plus, sin_minus. ring.
Qed.

Lemma sum_sin_telescope (th : R) (n : nat) :
  2 * sin (th / 2) * rsum (map (fun k => sin (0 + INR k * th)) (seq 0 n))
  = cos (th / 2) - cos ((INR n - 1 / 2) * th).
Proof.
  induction n as [|n IH].
  - unfold rsum; simpl.
    replace ((0 - 1 / 2) * th) with (- (th / 2)) by field.
    rewrite cos_neg. ring.
  - rewrite seq_S, map_app, rsum_app, Rmult_plus_distr_l, IH.
    simpl map. unfold rsum at 1; simpl fold_left. rewrite S_INR.
    replace ((INR n + 1 - 1 / 2) * th) with (INR n * th + th / 2) by field.
    replace ((INR n - 1 / 2) * th) with (INR n * th - th / 2) by field.
    replace (0 + INR n * th) with (INR n * th) by ring.
    rewrite cos_plus, cos_minus. ring.
Qed.

Section Centre.

Import Coil.

Variable p : Params.
Hypothesis points_two : (2 <= coils_points p)%nat.

Local Abbreviation theta := ((2 * PI - 0) / INR (coils_points p)).

Lemma INR_points_two : 2 <= INR (coils_points p).
Proof.
  replace 2 with (INR 2) by (simpl; lra). now apply le_INR.
Qed.

Lemma sin_half_step_pos : 0 < sin (theta / 2).
Proof.
  pose proof INR_points_two as H2. pose proof PI_RGT_0 as Hpi.
  assert (Hinv : 0 < / INR (coils_points p)) by (apply Rinv_0_lt_compat; lra).
  assert (Hle : / INR (coils_points p) <= / 2)
    by (apply Rinv_le_contravar; lra).
  apply sin_gt_0.
  - unfold Rdiv. nra.
  - unfold Rdiv. nra.
Qed.

Lemma last_half_step :
  (INR (coils_points p) - 1 / 2) * theta = 2 * PI - theta / 2.
Proof. pose proof INR_points_two. field. lra. Qed.

Lemma rsum_coil_pos_x : rsum (coil_pos_x p) = 0.
Proof.
  unfold coil_pos_x, thetas, linspace_open. rewrite map_map.
  rewrite (rsum_scale (coils_radius p) (fun k => cos (0 + INR k * theta))).
  pose proof (sum_cos_telescope theta (coils_points p)) as H.
  rewrite last_half_step in H.
  replace (sin (2 * PI - theta / 2)) with (- sin (theta / 2)) in H
    by (rewrite sin_minus, sin_2PI, cos_2PI; ring).
  pose proof sin_half_step_pos as Hs.
  assert (rsum (map (fun k => cos (0 + INR k * theta)) (seq 0 (coils_points p)))
          = 0) by nra.
  rewrite H0. ring.
Qed.

Lemma rsum_coil_pos_y : rsum (coil_pos_y p) = 0.
Proof.
  unfold coil_pos_y, thetas, linspace_open. rewrite map_map.
  rewrite (rsum_scale (coils_radius p) (fun k => sin (0 + INR k * theta))).
  pose proof (sum_sin_telescope theta (coils_points p)) as H.
  rewrite last_half_step in H.
  replace (cos (2 * PI - theta / 2)) with (cos (theta / 2)) in H
    by (rewrite cos_minus, sin_2PI, cos_2PI; ring).
  pose proof sin_half_step_pos as Hs.
  assert (rsum (map (fun k => sin (0 + INR k * theta)) (seq 0 (coils_points p)))
          = 0) by nra.
  rewrite H0. ring.
Qed.

End Centre.

Lemma map_vx_stack3 (xs : list R) :
  forall ys zs, length ys = length xs -> length zs = length xs ->
    map vx (stack3 xs ys zs) = xs /\ map vy (stack3 xs ys zs) = ys.
Proof.
  induction xs as [|x xs IH]; intros [|y ys] [|z zs] Hy Hz; try discriminate.
  - split; reflexivity.
  - simpl in Hy, Hz.
    change (stack3 (x :: xs) (y :: ys) (z :: zs))
      with (mkVec x y z :: stack3 xs ys zs).
    destruct (IH ys zs) as [E1 E2]; try lia.
    simpl. now rewrite E1, E2.
Qed.

Lemma rsum_rings (p : Coil.Params) (c : Vec3 -> R) (col : list R) (zs : list R) :
  (forall z, map c (Coil.ring_origins p z) = col) ->
  rsum col = 0 ->
  rsum (map c (concat (map (Coil.ring_origins p) zs))) = 0.
Proof.
  intros Hc H0. induction zs as [|z zs IH]; [reflexivity|].
  simpl. rewrite map_app, rsum_app, Hc, H0, IH. lra.
Qed.

Lemma mean_some (l : list R) :
  l <> [] -> Observation.mean l = Some (rsum l / INR (length l)).
Proof. destruct l; [congruence | reflexivity]. Qed.

Lemma rsum_offsets (s : R) (n : nat) :
  rsum (map (fun k => INR k * s) (seq 0 n)) = INR n * (INR n - 1) / 2 * s.
Proof.
  induction n as [|n IH].
  - unfold rsum; simpl. lra.
  - rewrite seq_S, map_app, rsum_app, IH. simpl map.
    unfold rsum at 1; simpl fold_left. rewrite S_INR. lra.
Qed.

(** With at least two points per ring and at least one ring the
    observation point computed by the script is on the coil axis, halfway
    up the stack: [(0, 0, (coils_number - 1) * coils_step / 2)]. *)
Theorem center_point_on_axis (p : Coil.Params) :
  (2 <= Coil.coils_points p)%nat -> (1 <= Coil.coils_number p)%nat ->
  Observation.center_point p
  = Some (mkVec 0 0 ((INR (Coil.coils_number p) - 1) * Coil.coils_step p / 2)).
Proof.
  intros HP HT.
  assert (HP0 : (0 < Coil.coils_points p)%nat) by lia.
  unfold Observation.center_point, SimulatorAnim.geometry, Coil.build.
  destruct (dl_x_some p HP0) as (dx & Ex & _).
  destruct (dl_y_some p HP0) as (dy & Ey & _).
  rewrite Ex, Ey.
  set (zs := SimulatorAnim.z_positions p).
  set (rp := concat (map (Coil.ring_origins p) zs)).
  assert (Lz : length zs = Coil.coils_number p).
  { unfold zs, SimulatorAnim.z_positions. now rewrite length_map, length_seq. }
  assert (Lrp : length rp = (Coil.coils_number p * Coil.coils_points p)%nat).
  { unfold rp. rewrite (length_concat_uniform (Coil.coils_points p)).
    - now rewrite length_map, Lz.
    - apply Forall_forall. intros l Hl. apply in_map_iff in Hl.
      destruct Hl as (z & <- & _). now apply length_ring_origins. }
  assert (Hcols : forall z,
            map vx (Coil.ring_origins p z) = Coil.coil_pos_x p /\
            map vy (Coil.ring_origins p z) = Coil.coil_pos_y p).
  { intro z. unfold Coil.ring_origins. apply map_vx_stack3.
    - now rewrite length_coil_pos_y, length_coil_pos_x.
    - unfold full_like. now rewrite length_map. }
  assert (Hne : forall c : Vec3 -> R, map c rp <> []).
  { intros c E. apply (f_equal (@length R)) in E.
    rewrite length_map, Lrp in E. simpl in E. nia. }
  unfold Observation.coil_center_x, Observation.coil_center_y,
    Observation.coil_center_z.
  rewrite (mean_some _ (Hne vx)), (mean_some _ (Hne vy)). cbn [bind].
  rewrite mean_some
    by (intro E; apply (f_equal (@length R)) in E; rewrite Lz in E;
        simpl in E; lia).
  cbn [bind].
  unfold rp at 1 3.
  rewrite (rsum_rings p vx (Coil.coil_pos_x p) zs
             (fun z => proj1 (Hcols z)) (rsum_coil_pos_x p HP)).
  rewrite (rsum_rings p vy (Coil.coil_pos_y p) zs
             (fun z => proj2 (Hcols z)) (rsum_coil_pos_y p HP)).
  rewrite Lz. unfold zs, SimulatorAnim.z_positions. rewrite rsum_offsets.
  assert (HT' : 1 <= INR (Coil.coils_number p))
    by (replace 1 with (INR 1) by reflexivity; now apply le_INR).
  f_equal. f_equal.
  - unfold Rdiv. ring.
  - unfold Rdiv. ring.
  - field. lra.
Qed.

(** For the constants of the script the observation point is
    [(0, 0, 0.1)]. *)
Lemma center_point_on_axis_witness :
  (2 <= Coil.coils_points SimulatorAnim.params)%nat /\
  (1 <= Coil.coils_number SimulatorAnim.params)%nat /\
  Observation.center_point SimulatorAnim.params
  = Some (mkVec 0 0 ((INR (Coil.coils_number SimulatorAnim.params) - 1)
                     * Coil.coils_step SimulatorAnim.params / 2)).
Proof.
  assert (HP : (2 <= Coil.coils_points SimulatorAnim.params)%nat)
    by (simpl; lia).
  assert (HT : (1 <= Coil.coils_number SimulatorAnim.params)%nat)
    by (simpl; lia).
  split; [exact HP|]. split; [exact HT|].
  exact (center_point_on_axis SimulatorAnim.params HP HT).
Defined.

(** ** Sampling axes, heat-map plane and quiver subsampling of [simulator.py] *)

Lemma last_map_seq (f : nat -> R) (n : nat) (d : R) :
  last (map f (seq 0 (S n))) d = f n.
Proof. rewrite seq_S, map_app. simpl. apply last_last. Qed.

(** An axis built as [np.arange(lo, hi + h, h)] with [h > 0] and
    [lo <= hi] starts at [lo], is not empty, stays below [hi + h] and
    reaches at least [hi]; when [hi - lo] is a whole number [n] of steps
    it is exactly [lo, lo + h, ..., hi], both bounds included. *)
Theorem axis_covers_closed_interval (lo hi h : R) :
  0 < h -> lo <= hi ->
  exists xs,
    arange lo (hi + h) h = Some xs /\
    (1 <= length xs)%nat /\
    nth 0 xs lo = lo /\
    Forall (fun x => lo <= x < hi + h) xs /\
    hi <= last xs lo /\
    (forall n, hi = lo + INR n * h ->
       xs = map (fun k => lo + INR k * h) (seq 0 (S n)) /\ last xs lo = hi).
Proof.
  intros Hh Hle. unfold arange.
  destruct (Req_EM_T h 0) as [E|_]; [lra|].
  set (q := (hi + h - lo) / h).
  assert (Hq : q * h = hi + h - lo) by (unfold q; field; lra).
  assert (Hq1 : 1 <= q) by (apply Rmult_le_reg_r with h; nra).
  destruct (Zceil_bound q) as [Hc1 Hc2].
  set (c := Zceil q) in *.
  assert (Hcpos : (1 <= c)%Z) by (apply le_IZR; lra).
  set (n := Z.to_nat c).
  assert (Hn : INR n = IZR c)
    by (unfold n; rewrite INR_IZR_INZ, Z2Nat.id by lia; reflexivity).
  assert (Hn1 : (1 <= n)%nat) by (unfold n; lia).
  eexists. split; [reflexivity|].
  destruct n as [|n'] eqn:En; [lia|]. rewrite S_INR in Hn.
  split; [rewrite length_map, length_seq; lia|].
  split; [simpl; lra|].
  split; [| split].
  - apply Forall_forall. intros x Hx. apply in_map_iff in Hx.
    destruct Hx as (k & <- & Hk). apply in_seq in Hk.
    assert (0 <= INR k) by apply pos_INR.
    assert (INR k <= INR n') by (apply le_INR; lia).
    split; nra.
  - rewrite last_map_seq. nra.
  - intros m Hm.
    assert (Hqm : q = INR m + 1) by (unfold q; rewrite Hm; field; lra).
    assert (Hmn : m = n').
    { apply INR_eq. 
      assert (Hc : c = (Z.of_nat m + 1)%Z)
        by (apply Zceil_eq; rewrite plus_IZR, <- INR_IZR_INZ; lra).
      assert (IZR c = INR m + 1)
        by (rewrite Hc, plus_IZR, <- INR_IZR_INZ; lra).
      lra. }
    subst m. split; [reflexivity|].
    rewrite last_map_seq. lra.
Qed.

(** The x axis of the script: nine samples from -2 to 2. *)
Lemma axis_covers_closed_interval_witness :
  0 < Grid.space_res /\ -2 <= 2 /\
  exists xs,
    arange (-2) (2 + Grid.space_res) Grid.space_res = Some xs /\
    (1 <= length xs)%nat /\
    nth 0 xs (-2) = -2 /\
    Forall (fun x => -2 <= x < 2 + Grid.space_res) xs /\
    2 <= last xs (-2) /\
    (forall n, 2 = -2 + INR n * Grid.space_res ->
       xs = map (fun k => -2 + INR k * Grid.space_res) (seq 0 (S n))
       /\ last xs (-2) = 2).
Proof.
  assert (Hh : 0 < Grid.space_res) by (unfold Grid.space_res; lra).
  assert (Hle : -2 <= 2) by lra.
  split; [exact Hh|]. split; [exact Hle|].
  exact (axis_covers_closed_interval (-2) 2 Grid.space_res Hh Hle).
Defined.

Lemma argmin_from_keeps (best : R) (best_i : nat) (l : list R) :
  Forall (fun a => best <= a) l ->
  forall i, HeatMap.argmin_from best best_i i l = best_i.
Proof.
  induction 1 as [|a l Ha _ IH]; intro i; [reflexivity|].
  simpl. destruct (Rlt_dec a best); [lra | apply IH].
Qed.

(** On an axis whose first sample is its smallest, [np.argmin] selects
    index 0, so the heat map is computed on the plane of the first x
    sample: entry [j, k] is [sqrt(Bz^2 + By^2)] of the field at
    [(x_dim[0], y_dim[j], z_dim[k])]. *)
Theorem heat_map_plane
    (x0 : R) (xs ys zs : list R) (r_primes dl_vectors : list Vec3) (km : R) :
  Forall (fun x => x0 <= x) xs ->
  HeatMap.argmin (x0 :: xs) = Some 0%nat /\
  HeatMap.B_magnitude
    (Grid.B (Grid.meshgrid_ij (x0 :: xs) ys zs) r_primes dl_vectors km)
    (x0 :: xs)
  = Some (map (fun y =>
            map (fun z =>
                   let b := Field.magnetic_field_from_coil_at_point
                              (mkVec x0 y z) r_primes dl_vectors km in
                   sqrt (vz b ^ 2 + vy b ^ 2))
                zs)
          ys).
Proof.
  intro Hmin.
  assert (Ha : HeatMap.argmin (x0 :: xs) = Some 0%nat)
    by (unfold HeatMap.argmin; now rewrite argmin_from_keeps).
  split; [exact Ha|].
  unfold HeatMap.B_magnitude. rewrite Ha. cbn [bind].
  rewrite grid_B_pointwise.
  unfold HeatMap.plane, Grid.meshgrid_ij, Grid.gmap.
  cbn [map nth_error option_map bind].
  f_equal.
  rewrite (map2_map_same
             (Field.map2 (fun bz by_ => sqrt (bz ^ 2 + by_ ^ 2)))
             (map vz) (map vy)).
  rewrite !map_map. apply map_ext. intro y.
  rewrite (map2_map_same (fun bz by_ => sqrt (bz ^ 2 + by_ ^ 2)) vz vy).
  rewrite !map_map. reflexivity.
Qed.

Lemma heat_map_plane_witness :
  Forall (fun x => -2 <= x) [- (3 / 2); -1] /\
  HeatMap.argmin [-2; - (3 / 2); -1] = Some 0%nat /\
  HeatMap.B_magnitude
    (Grid.B (Grid.meshgrid_ij [-2; - (3 / 2); -1] [0] [1])
            [mkVec 1 0 0] [mkVec 0 1 0] 30)
    [-2; - (3 / 2); -1]
  = Some (map (fun y =>
            map (fun z =>
                   let b := Field.magnetic_field_from_coil_at_point
                              (mkVec (-2) y z) [mkVec 1 0 0] [mkVec 0 1 0] 30 in
                   sqrt (vz b ^ 2 + vy b ^ 2))
                [1])
          [0]).
Proof.
  assert (H : Forall (fun x => -2 <= x) [- (3 / 2); -1])
    by (repeat constructor; lra).
  split; [exact H|].
  exact (heat_map_plane (-2) [- (3 / 2); -1] [0] [1]
           [mkVec 1 0 0] [mkVec 0 1 0] 30 H).
Defined.

Lemma nth_error_every {A : Type} (step : nat) (l : list A) :
  (1 <= step)%nat ->
  forall skip k,
    nth_error (HeatMap.every step skip l) k = nth_error l (skip + k * step).
Proof.
  intro Hs. induction l as [|a l IH]; intros skip k.
  - simpl. destruct k, (skip + _)%nat; reflexivity.
  - destruct skip as [|skip]; simpl HeatMap.every.
    + destruct k as [|k]; [reflexivity|].
      simpl nth_error at 1. rewrite IH.
      replace (0 + S k * step)%nat with (S (step - 1 + k * step)) by lia.
      reflexivity.
    + rewrite IH. reflexivity.
Qed.

Lemma gget_slice3 {A : Type} (step : nat) (g g' : Grid.Grid A) (i j k : nat) :
  HeatMap.slice3 step g = Some g' ->
  Grid.gget i j k g' = Grid.gget (i * step) (j * step) (k * step) g.
Proof.
  unfold HeatMap.slice3. destruct step as [|s]; [discriminate|].
  intro E. injection E as <-.
  assert (Hs : (1 <= S s)%nat) by lia.
  unfold Grid.gget.
  rewrite !nth_error_map, (nth_error_every _ _ Hs). simpl Nat.add.
  destruct (nth_error g (i * S s)) as [pl|]; [|reflexivity].
  cbn [option_map].
  rewrite nth_error_map, (nth_error_every _ _ Hs). simpl Nat.add.
  destruct (nth_error pl (j * S s)) as [ln|]; [|reflexivity].
  cbn [option_map]. now rewrite (nth_error_every _ _ Hs).
Qed.

(** The arrays handed to the quiver plot stay aligned: with a positive
    step, entry [i, j, k] of the coordinate arrays is the lattice point
    [(x[i*step], y[j*step], z[k*step])], and entry [i, j, k] of [U, V, W]
    is the field at that same point. *)
Theorem quiver_aligned
    (step : nat) (xs ys zs : list R) (r_primes dl_vectors : list Vec3) (km : R) :
  (1 <= step)%nat ->
  exists q,
    HeatMap.quiver step (Grid.meshgrid_ij xs ys zs)
      (Grid.B (Grid.meshgrid_ij xs ys zs) r_primes dl_vectors km) = Some q /\
    forall i j k x y z,
      nth_error xs (i * step) = Some x -> nth_error ys (j * step) = Some y ->
      nth_error zs (k * step) = Some z ->
      let b := Field.magnetic_field_from_coil_at_point
                 (mkVec x y z) r_primes dl_vectors km in
      Grid.gget i j k (HeatMap.Xq q) = Some x /\
      Grid.gget i j k (HeatMap.Yq q) = Some y /\
      Grid.gget i j k (HeatMap.Zq q) = Some z /\
      Grid.gget i j k (HeatMap.U q) = Some (vx b) /\
      Grid.gget i j k (HeatMap.V q) = Some (vy b) /\
      Grid.gget i j k (HeatMap.W q) = Some (vz b).
Proof.
  intro Hs. destruct step as [|s]; [lia|].
  set (lattice := Grid.meshgrid_ij xs ys zs).
  set (B := Grid.B lattice r_primes dl_vectors km).
  unfold HeatMap.quiver.
  destruct (HeatMap.slice3 (S s) (Grid.gmap vx lattice)) as [xq|] eqn:Ex;
    [| discriminate].
  destruct (HeatMap.slice3 (S s) (Grid.gmap vy lattice)) as [yq|] eqn:Ey;
    [| discriminate].
  destruct (HeatMap.slice3 (S s) (Grid.gmap vz lattice)) as [zq|] eqn:Ez;
    [| discriminate].
  destruct (HeatMap.slice3 (S s) B) as [Bq|] eqn:EB; [| discriminate].
  cbn [bind]. eexists. split; [reflexivity|].
  intros i j k x y z Hx Hy Hz.
  set (b := Field.magnetic_field_from_coil_at_point
              (mkVec x y z) r_primes dl_vectors km).
  cbn [HeatMap.Xq HeatMap.Yq HeatMap.Zq HeatMap.U HeatMap.V HeatMap.W].
  pose proof (gget_meshgrid xs ys zs _ _ _ x y z Hx Hy Hz) as Hl.
  fold lattice in Hl.
  assert (HB : Grid.gget (i * S s) (j * S s) (k * S s) B = Some b).
  { unfold B. rewrite grid_B_pointwise, gget_gmap, Hl. reflexivity. }
  rewrite (gget_slice3 _ _ _ i j k Ex), (gget_slice3 _ _ _ i j k Ey),
    (gget_slice3 _ _ _ i j k Ez).
  rewrite !gget_gmap, (gget_slice3 _ _ _ i j k EB), HB, Hl.
  repeat split.
Qed.

Lemma quiver_aligned_witness :
  (1 <= 2)%nat /\
  exists q,
    HeatMap.quiver 2 (Grid.meshgrid_ij [0; 1; 2] [3] [4])
      (Grid.B (Grid.meshgrid_ij [0; 1; 2] [3] [4])
              [mkVec 1 0 0] [mkVec 0 1 0] 30) = Some q /\
    Grid.gget 1 0 0 (HeatMap.Xq q) = Some 2 /\
    Grid.gget 1 0 0 (HeatMap.U q)
    = Some (vx (Field.magnetic_field_from_coil_at_point
                  (mkVec 2 3 4) [mkVec 1 0 0] [mkVec 0 1 0] 30)).
Proof.
  assert (Hs : (1 <= 2)%nat) by lia.
  split; [exact Hs|].
  destruct (quiver_aligned 2 [0; 1; 2] [3] [4] [mkVec 1 0 0] [mkVec 0 1 0] 30 Hs)
    as (q & E & H).
  exists q. split; [exact E|].
  destruct (H 1%nat 0%nat 0%nat 2 3 4 eq_refl eq_refl eq_refl)
    as (Hx & _ & _ & Hu & _).
  split; [exact Hx | exact Hu].
Defined.

(** ** [2d_sim.py]: logs, approach of the magnet, replay *)

Section Sim2DLogs.

Import Sim2D.

Variable p : Params.

Lemma update_some (k : nat) (st : State) :
  dt p <> 0 -> softened p (x_at p k) <> 0 ->
  k = 0%nat \/ flux_vals st <> [] ->
  exists emf,
    update p k st
    = Some (mkState (x_vals st ++ [INR k * dt p])
                    (flux_vals st ++ [Restart.flux_value p k])
                    (emf_vals st ++ [emf])) /\
    emf = match k with
          | O => 0
          | S _ =>
              - (Restart.flux_value p k
                 - nth (length (flux_vals st) - 1) (flux_vals st) 0) / dt p
          end.
Proof.
  intros Hdt Hs Hk. unfold update. fold (x_at p k).
  rewrite (B_field_some p _ Hs). cbn [bind]. fold (Restart.flux_value p k).
  destruct k as [|k].
  - exists 0. split; reflexivity.
  - destruct Hk as [Hk|Hne]; [discriminate|].
    cbn [Nat.eqb]. rewrite neg_index_snoc_1, (neg_index_snoc_2 _ _ Hne).
    cbn [bind]. rewrite (pydiv_some _ _ Hdt). cbn [bind].
    eexists. split; reflexivity.
Qed.

(** Called with a nonzero frame on empty lists, [update] fails: after the
    append there is one flux value and [flux_vals[-2]] does not exist. *)
Lemma update_needs_history (k : nat) (st : State) :
  flux_vals st = [] -> update p (S k) st = None.
Proof.
  intro E. unfold update. rewrite E.
  destruct (B_field p _); [| reflexivity].
  cbn [bind Nat.eqb]. rewrite neg_index_snoc_1. cbn [bind].
  rewrite neg_index_snoc_2_nil. reflexivity.
Qed.

Lemma run_logs (n : nat) :
  dt p <> 0 ->
  (forall k, (k < n)%nat -> softened p (x_at p k) <> 0) ->
  exists st,
    run p n = Some st /\
    x_vals st = map (fun k => INR k * dt p) (seq 0 n) /\
    flux_vals st = map (Restart.flux_value p) (seq 0 n) /\
    length (emf_vals st) = n.
Proof.
  intro Hdt. induction n as [|n IH]; intro Hs.
  - exists empty. repeat split.
  - destruct IH as (st & E & Hx & Hf & He); [intros k Hk; apply Hs; lia|].
    destruct (update_some n st Hdt (Hs n (Nat.lt_succ_diag_r n)))
      as (emf & E1 & _).
    { destruct n; [now left | right].
      rewrite Hf. intro E'. apply (f_equal (@length R)) in E'.
      rewrite length_map, length_seq in E'. discriminate. }
    eexists. simpl run. rewrite E. cbn [bind]. split; [exact E1|].
    cbn [x_vals flux_vals emf_vals].
    rewrite seq_S, !map_app, Hx, Hf, length_app, He. simpl.
    repeat split. lia.
Qed.

End Sim2DLogs.

(** A run of [n] frames logs the times [0, dt, 2 dt, ...] (under the name
    [x_vals]) and the fluxes [N * A * B_field(x0 + v * k * dt)]; a call
    with a nonzero frame on empty lists fails instead of logging. *)
Theorem sim2d_logs (p : Sim2D.Params) :
  (forall k, Sim2D.update p (S k) Sim2D.empty = None) /\
  (forall n,
     Sim2D.dt p <> 0 ->
     (forall k, (k < n)%nat -> Sim2D.softened p (Sim2D.x_at p k) <> 0) ->
     exists st,
       Sim2D.run p n = Some st /\
       Sim2D.x_vals st = map (fun k => INR k * Sim2D.dt p) (seq 0 n) /\
       Sim2D.flux_vals st = map (Restart.flux_value p) (seq 0 n) /\
       length (Sim2D.emf_vals st) = n).
Proof.
  split.
  - intro k. now apply update_needs_history.
  - intros n. apply run_logs.
Qed.

Lemma sim2d_logs_witness :
  Sim2D.dt Sim2D.params <> 0 /\
  (forall k, (k < 200)%nat ->
     Sim2D.softened Sim2D.params (Sim2D.x_at Sim2D.params k) <> 0) /\
  exists st,
    Sim2D.run Sim2D.params 200 = Some st /\
    Sim2D.x_vals st = map (fun k => INR k * Sim2D.dt Sim2D.params) (seq 0 200) /\
    Sim2D.flux_vals st = map (Restart.flux_value Sim2D.params) (seq 0 200) /\
    length (Sim2D.emf_vals st) = 200%nat.
Proof.
  assert (Hdt : Sim2D.dt Sim2D.params <> 0) by (simpl; lra).
  assert (Hs : forall k, (k < 200)%nat ->
            Sim2D.softened Sim2D.params (Sim2D.x_at Sim2D.params k) <> 0).
  { intros k Hk. apply Rgt_not_eq, Rlt_gt, script_softened_pos. lia. }
  split; [exact Hdt|]. split; [exact Hs|].
  exact (proj2 (sim2d_logs Sim2D.params) 200%nat Hdt Hs).
Defined.

Section Sim2DApproach.

Import Sim2D.

Variable p : Params.
Hypothesis N_pos : 0 < N p.
Hypothesis A_pos : 0 < A p.
Hypothesis m_pos : 0 < m p.
Hypothesis v_pos : 0 < v p.
Hypothesis dt_pos : 0 < dt p.

Lemma x_at_mono (k n : nat) : (k <= n)%nat -> x_at p k <= x_at p n.
Proof.
  intro H. apply le_INR in H. unfold x_at.
  assert (0 < v p * dt p) by now apply Rmult_lt_0_compat.
  nra.
Qed.

Lemma x_at_step (k : nat) : x_at p k < x_at p (S k).
Proof.
  unfold x_at. rewrite S_INR.
  assert (0 < v p * dt p) by now apply Rmult_lt_0_compat.
  nra.
Qed.

Lemma softened_pos_left (x : R) : x <= coil_position p -> 0 < softened p x.
Proof.
  intro H. unfold softened. cbv zeta.
  set (r := coil_position p - x).
  assert (Hr : 0 <= r) by (unfold r; lra).
  assert (0 <= r ^ 3) by (apply pow_le; exact Hr).
  lra.
Qed.

Lemma softened_decreasing (x y : R) :
  x < y -> y <= coil_position p -> softened p y < softened p x.
Proof.
  intros Hxy Hy. unfold softened. cbv zeta.
  set (a := coil_position p - x). set (b := coil_position p - y).
  assert (Hb : 0 <= b) by (unfold b; lra).
  assert (Hab : b < a) by (unfold a, b; lra).
  assert (a ^ 3 - b ^ 3 = (a - b) * (a * a + a * b + b * b)) by ring.
  assert (0 < a * a + a * b + b * b) by nra.
  assert (0 < (a - b) * (a * a + a * b + b * b))
    by (apply Rmult_lt_0_compat; lra).
  lra.
Qed.

Lemma flux_value_form (k : nat) :
  softened p (x_at p k) <> 0 ->
  Restart.flux_value p k
  = N p * A p * mu_0 * m p / (2 * PI) * / softened p (x_at p k).
Proof.
  intro H. unfold Restart.flux_value. pose proof PI_RGT_0. field. lra.
Qed.

Lemma flux_constant_pos : 0 < N p * A p * mu_0 * m p / (2 * PI).
Proof.
  pose proof PI_RGT_0 as Hpi.
  assert (H0 : 0 < mu_0).
  { unfold mu_0. apply Rmult_lt_0_compat; [lra|].
    apply Rdiv_lt_0_compat; [lra | apply pow_lt; lra]. }
  apply Rdiv_lt_0_compat; [| lra].
  apply Rmult_lt_0_compat;
    [apply Rmult_lt_0_compat; [apply Rmult_lt_0_compat |] |]; assumption.
Qed.

Lemma flux_value_pos (k : nat) :
  x_at p k <= coil_position p -> 0 < Restart.flux_value p k.
Proof.
  intro H. pose proof (softened_pos_left _ H) as Hs.
  rewrite flux_value_form by lra.
  apply Rmult_lt_0_compat; [apply flux_constant_pos|].
  now apply Rinv_0_lt_compat.
Qed.

Lemma flux_value_lt (j k : nat) :
  (j < k)%nat -> x_at p k <= coil_position p ->
  Restart.flux_value p j < Restart.flux_value p k.
Proof.
  intros Hjk Hk.
  assert (Hx : x_at p j < x_at p k).
  { apply Rlt_le_trans with (x_at p (S j)); [apply x_at_step|].
    apply x_at_mono. lia. }
  pose proof (softened_pos_left _ Hk) as Hsk.
  pose proof (softened_decreasing _ _ Hx Hk) as Hd.
  rewrite !flux_value_form by lra.
  apply Rmult_lt_compat_l; [apply flux_constant_pos|].
  apply Rinv_lt_contravar; [| exact Hd].
  apply Rmult_lt_0_compat; lra.
Qed.

Lemma run_approach (n : nat) :
  x_at p n <= coil_position p ->
  exists st,
    run p (S n) = Some st /\
    flux_vals st = map (Restart.flux_value p) (seq 0 (S n)) /\
    TimeSeries.backward_difference (dt p) (flux_vals st) (emf_vals st).
Proof.
  intro Hn.
  assert (Hdt : dt p <> 0) by lra.
  assert (Hs : forall k, (k < S n)%nat -> softened p (x_at p k) <> 0).
  { intros k Hk. apply Rgt_not_eq, Rlt_gt, softened_pos_left.
    apply Rle_trans with (x_at p n); [apply x_at_mono; lia | exact Hn]. }
  destruct (run_logs p (S n) Hdt Hs) as (st & E & _ & Hf & _).
  destruct (run_backward_difference p (S n) Hdt Hs) as (st' & E' & _ & Hbd).
  rewrite E in E'. injection E' as <-.
  exists st. auto.
Qed.

Lemma nth_flux_value (n k : nat) :
  (k <= n)%nat ->
  nth k (map (Restart.flux_value p) (seq 0 (S n))) 0 = Restart.flux_value p k.
Proof.
  intro H.
  rewrite (nth_indep _ 0 (Restart.flux_value p 0))
    by (rewrite length_map, length_seq; lia).
  rewrite map_nth, seq_nth by lia. reflexivity.
Qed.

End Sim2DApproach.

(** While the magnet has not passed the coil (positive constants, last
    frame position at most [coil_position]) the run completes, every flux
    is positive and larger than the one before, every EMF from step 1 on
    is negative and the arrow direction [np.sign(emf)] is -1. *)
Theorem approach_gives_negative_emf (p : Sim2D.Params) (n : nat) :
  0 < Sim2D.N p -> 0 < Sim2D.A p -> 0 < Sim2D.m p ->
  0 < Sim2D.v p -> 0 < Sim2D.dt p ->
  Sim2D.x_at p n <= Sim2D.coil_position p ->
  exists st,
    Sim2D.run p (S n) = Some st /\
    forall k, (k <= n)%nat ->
      0 < nth k (Sim2D.flux_vals st) 0 /\
      ((1 <= k)%nat ->
       nth (k - 1) (Sim2D.flux_vals st) 0 < nth k (Sim2D.flux_vals st) 0 /\
       nth k (Sim2D.emf_vals st) 0 < 0 /\
       Sim2D.arrow_dir (nth k (Sim2D.emf_vals st) 0) = -1).
Proof.
  intros HN HA Hm Hv Hdt Hn.
  destruct (run_approach p Hv Hdt n Hn) as (st & E & Hf & [HL Hbd]).
  exists st. split; [exact E|].
  intros k Hk.
  assert (Hxk : forall j, (j <= n)%nat ->
                  Sim2D.x_at p j <= Sim2D.coil_position p).
  { intros j Hj. apply Rle_trans with (Sim2D.x_at p n); [| exact Hn].
    now apply x_at_mono. }
  split.
  - rewrite Hf, nth_flux_value by assumption.
    apply flux_value_pos; auto.
  - intro H1. destruct k as [|k]; [lia|].
    assert (Hinc : nth (S k - 1) (Sim2D.flux_vals st) 0
                   < nth (S k) (Sim2D.flux_vals st) 0).
    { rewrite Hf, !nth_flux_value by lia.
      replace (S k - 1)%nat with k by lia.
      apply flux_value_lt; auto. }
    assert (He : nth (S k) (Sim2D.emf_vals st) 0 < 0).
    { rewrite Hbd by (rewrite Hf, length_map, length_seq; lia).
      replace (S k - 1)%nat with k in Hinc by lia.
      assert (0 < / Sim2D.dt p) by now apply Rinv_0_lt_compat.
      unfold Rdiv. nra. }
    split; [exact Hinc|]. split; [exact He|].
    unfold Sim2D.arrow_dir. now apply sign_neg.
Qed.

(** The 200 frames the script plays: the magnet goes from -0.5 to -0.301,
    left of the coil at 0.5. *)
Lemma approach_gives_negative_emf_witness :
  0 < Sim2D.N Sim2D.params /\ 0 < Sim2D.A Sim2D.params /\
  0 < Sim2D.m Sim2D.params /\ 0 < Sim2D.v Sim2D.params /\
  0 < Sim2D.dt Sim2D.params /\
  Sim2D.x_at Sim2D.params 199 <= Sim2D.coil_position Sim2D.params /\
  exists st,
    Sim2D.run Sim2D.params 200 = Some st /\
    forall k, (k <= 199)%nat ->
      0 < nth k (Sim2D.flux_vals st) 0 /\
      ((1 <= k)%nat ->
       nth (k - 1) (Sim2D.flux_vals st) 0 < nth k (Sim2D.flux_vals st) 0 /\
       nth k (Sim2D.emf_vals st) 0 < 0 /\
       Sim2D.arrow_dir (nth k (Sim2D.emf_vals st) 0) = -1).
Proof.
  assert (HN : 0 < Sim2D.N Sim2D.params) by (simpl; lra).
  assert (HA : 0 < Sim2D.A Sim2D.params) by (simpl; lra).
  assert (Hm : 0 < Sim2D.m Sim2D.params) by (simpl; lra).
  assert (Hv : 0 < Sim2D.v Sim2D.params) by (simpl; lra).
  assert (Hdt : 0 < Sim2D.dt Sim2D.params) by (simpl; lra).
  assert (Hx : Sim2D.x_at Sim2D.params 199 <= Sim2D.coil_position Sim2D.params).
  { unfold Sim2D.x_at. rewrite INR_IZR_INZ. simpl. lra. }
  repeat (split; [assumption|]).
  exact (approach_gives_negative_emf Sim2D.params 199 HN HA Hm Hv Hdt Hx).
Defined.

(** [init] of [2d_sim.py] does not clear the lists, so when the frames
    start over at 0 the call logs EMF 0 although the flux drops back to
    its first value: the lists then no longer obey the backward-difference
    rule. *)
Theorem replay_without_clearing (p : Sim2D.Params) (n : nat) :
  0 < Sim2D.N p -> 0 < Sim2D.A p -> 0 < Sim2D.m p ->
  0 < Sim2D.v p -> 0 < Sim2D.dt p ->
  Sim2D.x_at p (S n) <= Sim2D.coil_position p ->
  exists st st1,
    Sim2D.run p (S (S n)) = Some st /\
    Sim2D.update p 0 (Restart.init_2d st) = Some st1 /\
    Sim2D.flux_vals st1 = Sim2D.flux_vals st ++ [Restart.flux_value p 0] /\
    Sim2D.emf_vals st1 = Sim2D.emf_vals st ++ [0] /\
    ~ TimeSeries.backward_difference
        (Sim2D.dt p) (Sim2D.flux_vals st1) (Sim2D.emf_vals st1).
Proof.
  intros HN HA Hm Hv Hdt Hn.
  destruct (run_approach p Hv Hdt (S n) Hn) as (st & E & Hf & [HL Hbd]).
  assert (Hdt0 : Sim2D.dt p <> 0) by lra.
  assert (H0 : Sim2D.softened p (Sim2D.x_at p 0) <> 0).
  { apply Rgt_not_eq, Rlt_gt, softened_pos_left.
    apply Rle_trans with (Sim2D.x_at p (S n)); [| exact Hn].
    apply x_at_mono; try assumption. lia. }
  destruct (update_some p 0 (Restart.init_2d st) Hdt0 H0 (or_introl eq_refl))
    as (emf & E1 & ->).
  unfold Restart.init_2d in *.
  eexists st, _. split; [exact E|]. split; [exact E1|].
  cbn [Sim2D.flux_vals Sim2D.emf_vals].
  split; [reflexivity|]. split; [reflexivity|].
  intros [HL1 Hbd1].
  assert (Lf : length (Sim2D.flux_vals st) = S (S n))
    by (rewrite Hf, length_map, length_seq; reflexivity).
  assert (Le : length (Sim2D.emf_vals st) = S (S n)) by lia.
  assert (Hin : (S (S n) < length (Sim2D.flux_vals st
                                   ++ [Restart.flux_value p 0]))%nat)
    by (rewrite length_app, Lf; simpl; lia).
  specialize (Hbd1 (S (S n)) Hin).
  assert (N1 : nth (S (S n)) (Sim2D.emf_vals st ++ [0]) 0 = 0)
    by (rewrite <- Le; apply nth_middle).
  assert (N2 : nth (S (S n)) (Sim2D.flux_vals st ++ [Restart.flux_value p 0]) 0
               = Restart.flux_value p 0)
    by (rewrite <- Lf; apply nth_middle).
  assert (N3 : nth (S n) (Sim2D.flux_vals st ++ [Restart.flux_value p 0]) 0
               = Restart.flux_value p (S n))
    by (rewrite app_nth1 by lia; rewrite Hf; apply nth_flux_value; lia).
  rewrite N1, N2, N3 in Hbd1.
  assert (Hlt : Restart.flux_value p 0 < Restart.flux_value p (S n)).
  { apply flux_value_lt; try assumption. lia. }
  assert (0 < / Sim2D.dt p) by now apply Rinv_0_lt_compat.
  unfold Rdiv in Hbd1. nra.
Qed.

Lemma replay_without_clearing_witness :
  0 < Sim2D.N Sim2D.params /\ 0 < Sim2D.A Sim2D.params /\
  0 < Sim2D.m Sim2D.params /\ 0 < Sim2D.v Sim2D.params /\
  0 < Sim2D.dt Sim2D.params /\
  Sim2D.x_at Sim2D.params 199 <= Sim2D.coil_position Sim2D.params /\
  exists st st1,
    Sim2D.run Sim2D.params 200 = Some st /\
    Sim2D.update Sim2D.params 0 (Restart.init_2d st) = Some st1 /\
    Sim2D.flux_vals st1
    = Sim2D.flux_vals st ++ [Restart.flux_value Sim2D.params 0] /\
    Sim2D.emf_vals st1 = Sim2D.emf_vals st ++ [0] /\
    ~ TimeSeries.backward_difference
        (Sim2D.dt Sim2D.params) (Sim2D.flux_vals st1) (Sim2D.emf_vals st1).
Proof.
  assert (HN : 0 < Sim2D.N Sim2D.params) by (simpl; lra).
  assert (HA : 0 < Sim2D.A Sim2D.params) by (simpl; lra).
  assert (Hm : 0 < Sim2D.m Sim2D.params) by (simpl; lra).
  assert (Hv : 0 < Sim2D.v Sim2D.params) by (simpl; lra).
  assert (Hdt : 0 < Sim2D.dt Sim2D.params) by (simpl; lra).
  assert (Hx : Sim2D.x_at Sim2D.params 199 <= Sim2D.coil_position Sim2D.params).
  { unfold Sim2D.x_at. rewrite INR_IZR_INZ. simpl. lra. }
  repeat (split; [assumption|]).
  exact (replay_without_clearing Sim2D.params 198 HN HA Hm Hv Hdt Hx).
Defined.

(** ** [2d_sim_gemini.py]: histories, bounds, indicators, flux shape *)

Section GeminiRuns.

Import Sim2DGemini.

Variable p : Params.
Hypothesis width_nonzero : coil_width p <> 0.
Hypothesis resistance_nonzero : coil_resistance p <> 0.


End GeminiRuns.








(** [calculate_magnetic_field_at_coil] never fails; for a positive
    strength its value lies in [(0, B_strength / 0.1]] and is largest
    exactly when the magnet is at the coil; it is the same on both sides
    of the coil and ignores its [coil_width] argument. *)
Theorem effective_field_shape (magnet_pos_x coil_pos_x B_strength : R) :
  (forall coil_width,
     Sim2DGemini.calculate_magnetic_field_at_coil
       magnet_pos_x coil_pos_x coil_width B_strength
     = Some (B_strength / (Rabs (magnet_pos_x - coil_pos_x) ^ 2 + 1 / 10))) /\
  (forall d coil_width,
     Sim2DGemini.calculate_magnetic_field_at_coil
       (coil_pos_x + d) coil_pos_x coil_width B_strength
     = Sim2DGemini.calculate_magnetic_field_at_coil
         (coil_pos_x - d) coil_pos_x coil_width B_strength) /\
  (0 < B_strength ->
   0 < B_strength / (Rabs (magnet_pos_x - coil_pos_x) ^ 2 + 1 / 10)
     <= B_strength / (1 / 10) /\
   (B_strength / (Rabs (magnet_pos_x - coil_pos_x) ^ 2 + 1 / 10)
    = B_strength / (1 / 10) -> magnet_pos_x = coil_pos_x)).
Proof.
  assert (Hsome : forall x w,
            Sim2DGemini.calculate_magnetic_field_at_coil x coil_pos_x w B_strength
            = Some (B_strength / (Rabs (x - coil_pos_x) ^ 2 + 1 / 10))).
  { intros x w. unfold Sim2DGemini.calculate_magnetic_field_at_coil.
    apply pydiv_some. pose proof (pow2_ge_0 (Rabs (x - coil_pos_x))). lra. }
  split; [intro w; apply Hsome|]. split.
  - intros d w. rewrite !Hsome. do 3 f_equal.
    replace (coil_pos_x + d - coil_pos_x) with d by ring.
    replace (coil_pos_x - d - coil_pos_x) with (- d) by ring.
    now rewrite Rabs_Ropp.
  - intro HB.
    set (s := Rabs (magnet_pos_x - coil_pos_x) ^ 2).
    assert (Hs : 0 <= s) by (unfold s; apply pow2_ge_0).
    assert (Hinv : / (s + 1 / 10) <= / (1 / 10))
      by (apply Rinv_le_contravar; lra).
    assert (Hpos : 0 < / (s + 1 / 10)) by (apply Rinv_0_lt_compat; lra).
    split.
    + unfold Rdiv at 1 3. split; nra.
    + intro E.
      assert (Hs0 : s = 0).
      { assert (B_strength * (1 / 10) = B_strength * (s + 1 / 10)).
        { apply (f_equal (fun t => t * (1 / 10) * (s + 1 / 10))) in E.
          field_simplify in E; lra. }
        nra. }
      unfold s in Hs0. rewrite pow2_abs in Hs0.
      assert (magnet_pos_x - coil_pos_x = 0) by nra. lra.
Qed.

Lemma effective_field_shape_witness :
  0 < 1 /\
  0 < 1 / (Rabs (-3 - 0) ^ 2 + 1 / 10) <= 1 / (1 / 10).
Proof.
  assert (H : 0 < 1) by lra.
  split; [exact H|].
  exact (proj1 (proj2 (proj2 (effective_field_shape (-3) 0 1)) H)).
Defined.

Section GeminiFluxShape.

Import Sim2DGemini.

Variable p : Params.
Hypothesis strength_pos : 0 < B_field_strength p.
Hypothesis width_pos : 0 < coil_width p.
Hypothesis height_pos : 0 < coil_height p.
Hypothesis turns_pos : 0 < num_turns p.




End GeminiFluxShape.


